(** * osuTourneymapDownloader: a shallow embedding of [downloader.py]

    The development follows the source file top-down: module constants,
    [CredentialHelper], [BeatmapSet], [Downloader] and [main].  Python
    objects that are compared by identity carry their identity as a field;
    console input and HTTP responses are scripts that the program consumes
    from the front. *)

From Stdlib Require Import Ascii DecimalString.
From stdpp Require Import gmap strings list fin_maps.

Open Scope Z_scope.

(** ** Python strings

    A [str] is modelled by a Rocq [string]; a character outside ASCII is the
    sequence of its UTF-8 bytes.  Every pattern the program searches for is
    ASCII, and an ASCII byte never occurs inside a multi-byte sequence, so
    searching and substituting byte-wise agrees with doing so on code
    points. *)

Definition dquote : ascii := ascii_of_nat 34.
Definition backslash : ascii := ascii_of_nat 92.
Definition underscore : ascii := ascii_of_nat 95.
Definition newline : string := String (ascii_of_nat 10) "".

(** The text an f-string produces for an [int]. *)
Definition str_of_Z (n : Z) : string := NilZero.string_of_int (Z.to_int n).

(** [s.startswith(p)] together with the rest of [s] after [p]. *)
Fixpoint strip_prefix (p s : string) : option string :=
  match p with
  | EmptyString => Some s
  | String a p' =>
      match s with
      | EmptyString => None
      | String b s' => if Ascii.eqb a b then strip_prefix p' s' else None
      end
  end.

(** The text that follows the first occurrence of [p] in [s]. *)
Fixpoint find_after (p s : string) : option string :=
  match strip_prefix p s with
  | Some rest => Some rest
  | None =>
      match s with
      | EmptyString => None
      | String _ s' => find_after p s'
      end
  end.

(** The text that precedes the first occurrence of [p] in [s]. *)
Fixpoint find_before (p s : string) : option string :=
  match strip_prefix p s with
  | Some _ => Some EmptyString
  | None =>
      match s with
      | EmptyString => None
      | String a s' => String a <$> find_before p s'
      end
  end.

(** [s.center(width, fill)], with CPython's rule for an odd margin. *)
Definition center (s : string) (width : nat) (fill : ascii) : string :=
  let len := String.length s in
  if (width <=? len)%nat then s
  else
    let marg := (width - len)%nat in
    let left := (marg / 2 + (if Nat.odd marg && Nat.odd width then 1 else 0))%nat in
    let pad n := String.string_of_list_ascii (repeat fill n) in
    pad left +:+ s +:+ pad (marg - left)%nat.

(** [os.path.join(a, b)] on a POSIX system. *)
Definition path_join (a b : string) : string :=
  if bool_decide (is_Some (strip_prefix "/" b)) then b
  else if bool_decide (a = "") || bool_decide (is_Some (strip_prefix "/" (String.rev a)))
       then a +:+ b
       else a +:+ "/" +:+ b.

(** [s.lower() == "y"]: only the two letters lower-case to [y]. *)
Definition lower_is_y (s : string) : bool :=
  bool_decide (s = "y") || bool_decide (s = "Y").

(** ** Module constants (lines 13-44) *)

Definition DOWNLOAD_PATH : string := "./Downloads".

(** [ILLEGAL_CHARS] (line 23) is a regular expression made of one character
    class with nine members: less-than, greater-than, colon, double quote,
    slash, backslash, vertical bar, question mark and star. *)
Definition reserved_chars : list ascii :=
  ["<"%char; ">"%char; ":"%char; dquote; "/"%char; backslash; "|"%char;
   "?"%char; "*"%char].

Definition ILLEGAL_CHARS (c : ascii) : bool := bool_decide (c ∈ reserved_chars).

(** [ILLEGAL_CHARS.sub] with an underscore as replacement: every match is one character long, so
    the substitution works character by character. *)
Fixpoint ILLEGAL_CHARS_sub (s : string) : string :=
  match s with
  | EmptyString => EmptyString
  | String c s' =>
      String (if ILLEGAL_CHARS c then underscore else c) (ILLEGAL_CHARS_sub s')
  end.

Definition OSU_URL : string := "https://osu.ppy.sh/home".
Definition OSU_SESSION_URL : string := "https://osu.ppy.sh/session".
Definition OSU_SEARCH_URL : string := "https://osu.ppy.sh/beatmapsets/search".


(** ** What the process exchanges with its surroundings *)

Inductive level := INFO | SUCCESS | WARNING | ERROR.

Inductive method := GET | POST.

(** A call of [session.get] or [session.post] with the arguments the
    program passes. *)
Record request := {
  meth : method;
  url : string;
  params : list (string * string);
  data : gmap string string;
  headers : list (string * string);
  stream : bool
}.

(** One beatmap set of a search result: the keys the program reads, with
    the ids of its nested beatmaps. *)
Record bmset_data := {
  data_id : Z;
  data_title : string;
  data_artist : string;
  data_beatmaps : list Z
}.

(** Why a body yields no list of beatmap sets: it is not JSON
    ([response.json()] raises [JSONDecodeError]), it is a JSON object
    without the key [beatmapsets] (the subscript raises [KeyError]), or it
    is JSON but not an object (the subscript raises [TypeError]). *)
Inductive bad_body := NotJSON | WithoutBeatmapsets | NotAnObject.

(** A response of the [requests] library.  [json] is the list under the
    key [beatmapsets] of the decoded body, a list of objects with the keys
    the program reads; when the body has no such list [json] is [None] and
    [bad_json] says why.  [resp_headers] is keyed by lower-case header
    names; [iter_content] is the list of chunks the streamed body arrives
    in. *)
Record response := {
  status_code : Z;
  resp_headers : gmap string string;
  text : string;
  json : option (list bmset_data);
  bad_json : bad_body;
  iter_content : list string
}.

(** Effects in the order they happen, most recent first. *)
Inductive event :=
  | Log (l : level) (msg : string)
  | Stdout (msg : string)
  | Http (r : request)
  | Sleep (secs : Z).

Inductive node := Dir | File (content : string).

Inductive exn :=
  | SystemExit (code : option Z)
  | AttributeError
  | KeyError
  | ValueError
  | EOFError
  | ConnectionError
  | TypeError
  | OverflowError
  | JSONDecodeError
  | FileNotFoundError
  | NotADirectoryError
  | IsADirectoryError.

(** The exception a body without a list of beatmap sets ends in. *)
Definition json_exception (b : bad_body) : exn :=
  match b with
  | NotJSON => JSONDecodeError
  | WithoutBeatmapsets => KeyError
  | NotAnObject => TypeError
  end.

Inductive outcome (A : Type) :=
  | Ok (a : A)
  | Raise (e : exn).
Arguments Ok {A} a.
Arguments Raise {A} e.

(** The status the interpreter exits with: [sys.exit()] without an argument
    exits with 0, an exception that nobody catches with 1. *)
Definition exit_status {A} (o : outcome A) : Z :=
  match o with
  | Ok _ => 0
  | Raise (SystemExit None) => 0
  | Raise (SystemExit (Some c)) => c
  | Raise _ => 1
  end.

(** ** class BeatmapSet (lines 79-88)

    The class defines neither [__eq__] nor [__hash__], so Python compares
    and hashes its instances by identity: [oid] is that identity, given to
    the object when it is constructed. *)
Record BeatmapSet := {
  oid : nat;
  set_id : Z;
  title : string;
  artist : string;
  bs_url : string
}.

Definition BeatmapSet_str (b : BeatmapSet) : string :=
  let string := str_of_Z (set_id b) +:+ " " +:+ artist b +:+ " - " +:+ title b in
  ILLEGAL_CHARS_sub string.

(** Equality of two instances, as [set] sees it. *)
Definition same_object (a b : BeatmapSet) : bool := Nat.eqb (oid a) (oid b).

(** [s.add(x)] on a [set] of instances.  The set is kept as the list of
    its elements; the order of the list is one order in which the set can
    be iterated, not the order Python would iterate it in, which depends
    on the addresses of the objects and changes as the set grows. *)
Definition set_add (x : BeatmapSet) (s : list BeatmapSet) : list BeatmapSet :=
  if existsb (same_object x) s then s else s ++ [x].

(** ** The process state

    The fields of the [Downloader] object, the interpreter's allocation and
    [set.pop] counters, the local file system, the credentials file (absent,
    unreadable as JSON, or a dictionary) and the effects so far. *)
Record world := {
  beatmapsets : list BeatmapSet;
  limit : Z;
  no_video : bool;
  credentials : gmap string string;
  next_oid : nat;
  pops : nat;
  fs : gmap string node;
  creds_file : option (option (gmap string string));
  trace : list event
}.

Definition set_beatmapsets (v : list BeatmapSet) (w : world) : world :=
  {| beatmapsets := v; limit := limit w; no_video := no_video w;
     credentials := credentials w; next_oid := next_oid w; pops := pops w;
     fs := fs w; creds_file := creds_file w; trace := trace w |}.
Definition set_limit (v : Z) (w : world) : world :=
  {| beatmapsets := beatmapsets w; limit := v; no_video := no_video w;
     credentials := credentials w; next_oid := next_oid w; pops := pops w;
     fs := fs w; creds_file := creds_file w; trace := trace w |}.
Definition set_no_video (v : bool) (w : world) : world :=
  {| beatmapsets := beatmapsets w; limit := limit w; no_video := v;
     credentials := credentials w; next_oid := next_oid w; pops := pops w;
     fs := fs w; creds_file := creds_file w; trace := trace w |}.
Definition set_credentials (v : gmap string string) (w : world) : world :=
  {| beatmapsets := beatmapsets w; limit := limit w; no_video := no_video w;
     credentials := v; next_oid := next_oid w; pops := pops w;
     fs := fs w; creds_file := creds_file w; trace := trace w |}.
Definition set_next_oid (v : nat) (w : world) : world :=
  {| beatmapsets := beatmapsets w; limit := limit w; no_video := no_video w;
     credentials := credentials w; next_oid := v; pops := pops w;
     fs := fs w; creds_file := creds_file w; trace := trace w |}.
Definition set_pops (v : nat) (w : world) : world :=
  {| beatmapsets := beatmapsets w; limit := limit w; no_video := no_video w;
     credentials := credentials w; next_oid := next_oid w; pops := v;
     fs := fs w; creds_file := creds_file w; trace := trace w |}.
Definition set_fs (v : gmap string node) (w : world) : world :=
  {| beatmapsets := beatmapsets w; limit := limit w; no_video := no_video w;
     credentials := credentials w; next_oid := next_oid w; pops := pops w;
     fs := v; creds_file := creds_file w; trace := trace w |}.
Definition set_creds_file (v : option (option (gmap string string))) (w : world) : world :=
  {| beatmapsets := beatmapsets w; limit := limit w; no_video := no_video w;
     credentials := credentials w; next_oid := next_oid w; pops := pops w;
     fs := fs w; creds_file := v; trace := trace w |}.
Definition set_trace (v : list event) (w : world) : world :=
  {| beatmapsets := beatmapsets w; limit := limit w; no_video := no_video w;
     credentials := credentials w; next_oid := next_oid w; pops := pops w;
     fs := fs w; creds_file := creds_file w; trace := v |}.

(** ** A state and exception monad

    [ST S A] is a computation over a state [S] that returns an [A] or
    raises; [M] runs on the process state alone, [IO] also consumes the
    console lines and the responses of the server. *)
Definition ST (S A : Type) : Type := S → outcome A * S.

Definition ret {S A} (a : A) : ST S A := λ s, (Ok a, s).
Definition raise {S A} (e : exn) : ST S A := λ s, (Raise e, s).
Definition bind {S A B} (c : ST S A) (k : A → ST S B) : ST S B :=
  λ s, match c s with
       | (Ok a, s') => k a s'
       | (Raise e, s') => (Raise e, s')
       end.

Declare Scope prog_scope.
Delimit Scope prog_scope with prog.
Notation "x <- c ;; k" := (bind c (λ x, k))
  (at level 100, c at next level, right associativity) : prog_scope.
Notation "c ;; k" := (bind c (λ _, k))
  (at level 100, right associativity) : prog_scope.
Open Scope prog_scope.

Definition M (A : Type) : Type := ST world A.
Definition io : Type := list string * list response * world.
Definition IO (A : Type) : Type := ST io A.

Definition gets {A} (f : world → A) : M A := λ w, (Ok (f w), w).
Definition modify (f : world → world) : M unit := λ w, (Ok tt, f w).
Definition emit (e : event) : M unit := modify (λ w, set_trace (e :: trace w) w).
Definition logger (l : level) (msg : string) : M unit := emit (Log l msg).

Definition lift {A} (c : M A) : IO A :=
  λ '(stdin, net, w), let '(o, w') := c w in (o, (stdin, net, w')).

(** [input(prompt)]: the prompt goes to the console and the next line is
    read; at the end of the input Python raises [EOFError]. *)
Definition input (prompt : string) : IO string :=
  λ '(stdin, net, w),
    let w := set_trace (Stdout prompt :: trace w) w in
    match stdin with
    | [] => (Raise EOFError, ([], net, w))
    | s :: stdin' => (Ok s, (stdin', net, w))
    end.

(** A request on the session, given what comes back: a response, or
    nothing when the connection fails. *)
Definition session_reply (req : request) (reply : option response) : M response :=
  emit (Http req);;
  match reply with
  | Some r => ret r
  | None => raise ConnectionError
  end.

(** The same request, answered by the next response of the server. *)
Definition session_request (req : request) : IO response :=
  λ '(stdin, net, w),
    let '(o, w') := session_reply req (head net) w in
    (o, (stdin, tail net, w')).

(** ** A concrete interpreter for examples

    [digits_isnumeric] and [digits_int] agree with [str.isnumeric] and
    [int] on strings of ASCII digits, with an optional minus sign for
    [int]; the examples below use no other strings with them.  [pop_first]
    makes [set.pop] take the first element in iteration order. *)

Definition is_digit (c : ascii) : bool :=
  (48 <=? nat_of_ascii c)%nat && (nat_of_ascii c <=? 57)%nat.

Definition digits_isnumeric (s : string) : bool :=
  negb (bool_decide (s = "")) && forallb is_digit (String.list_ascii_of_string s).

Definition digits_int (s : string) : option Z :=
  match s with
  | String c rest =>
      if digits_isnumeric s then Z.of_int <$> NilZero.int_of_string s
      else if Ascii.eqb c "-" && digits_isnumeric rest
           then Z.of_int <$> NilZero.int_of_string s
           else None
  | EmptyString => None
  end.

Definition pop_first (n : nat) : nat := 0%nat.

(** An empty process state over a given file system and credentials
    file. *)
Definition boot (files : gmap string node)
    (file : option (option (gmap string string))) : world :=
  {| beatmapsets := []; limit := 0; no_video := false; credentials := ∅;
     next_oid := 0; pops := 0; fs := files; creds_file := file; trace := [] |}.

(** Sample data for the examples: a homepage with a token, responses with
    a status and nothing else, a search result, a download that can be
    saved, two beatmap sets, stored credentials. *)
Definition sample_page : string :=
  "<meta name=csrf-token content=" +:+ String dquote "tok123"
    +:+ String dquote ">" +:+ "<title>osu!</title>".

Definition sample_home : response :=
  {| status_code := 200; resp_headers := ∅; text := sample_page;
     json := None; bad_json := NotJSON; iter_content := [] |}.

Definition status_only (st : Z) : response :=
  {| status_code := st; resp_headers := ∅; text := ""; json := None;
     bad_json := NotJSON; iter_content := [] |}.

Definition search_result (sets : list bmset_data) : response :=
  {| status_code := 200; resp_headers := ∅; text := ""; json := Some sets;
     bad_json := NotJSON; iter_content := [] |}.

Definition archive (st : Z) : response :=
  {| status_code := st; resp_headers := {["content-length" := "5"]};
     text := ""; json := None; bad_json := NotJSON;
     iter_content := ["abc"; "de"] |}.

Definition sample_set : bmset_data :=
  {| data_id := 5; data_title := "Foo: Bar/Baz"; data_artist := "A";
     data_beatmaps := [1234; 77] |}.

Definition other_set : bmset_data :=
  {| data_id := 9; data_title := "Quux"; data_artist := "B";
     data_beatmaps := [40] |}.

Definition sample_creds : gmap string string :=
  {["username" := "u"; "password" := "p"]}.

Definition sample_record (o : nat) (d : bmset_data) : BeatmapSet :=
  {| oid := o; set_id := data_id d; title := data_title d;
     artist := data_artist d;
     bs_url := "https://osu.ppy.sh/beatmapsets/" +:+ str_of_Z (data_id d) |}.

(** A process state with two records to download into an existing, empty
    download directory. *)
Definition two_records : world :=
  {| beatmapsets := [sample_record 0 sample_set; sample_record 1 other_set];
     limit := 10; no_video := true; credentials := sample_creds;
     next_oid := 2; pops := 0; fs := {[DOWNLOAD_PATH := Dir]};
     creds_file := Some (Some sample_creds); trace := [] |}.

Ltac mred := unfold bind, ret, raise, gets, modify, emit, logger; simpl.
Ltac mred_in H :=
  unfold bind, ret, raise, gets, modify, emit, logger in H; simpl in H.

Section Program.

(** The interpreter and the operating system, as far as the program sees
    them: the home directory in the environment, [str.isnumeric],
    [int(str)] ([None] where Python raises [ValueError]), and the element
    that the n-th call of [set.pop] picks, as an index into the set's
    iteration order. *)
Variable USERPROFILE : string.
Variable str_isnumeric : string → bool.
Variable int_of_str : string → option Z.
Variable sched : nat → nat.

Definition HOME_DIR : string := path_join USERPROFILE ".osu-beatmap-downloader".
Definition CREDS_FILEPATH : string := path_join HOME_DIR "credentials.json".

(** ** class CredentialHelper (lines 45-76)

    The helper's dictionary is passed in and returned.  Opening the
    credentials file for writing and removing it are taken to succeed. *)

Definition save_credentials (credentials : gmap string string) : M unit :=
  modify (set_creds_file (Some (Some credentials))).

Definition ask_credentials (credentials : gmap string string) : IO (gmap string string) :=
  username <- input "Please enter your osu! username: ";;
  let credentials := <["username" := username]> credentials in
  password <- input "Please enter your osu! password: ";;
  let credentials := <["password" := password]> credentials in
  answer <- input ("Do you want to save the osu! credentials at " +:+ CREDS_FILEPATH +:+ "? (y/n): ");;
  (if lower_is_y answer then lift (save_credentials credentials) else ret tt);;
  ret credentials.

Definition load_credentials (credentials : gmap string string) : IO (gmap string string) :=
  file <- lift (gets creds_file);;
  match file with
  | Some (Some loaded) => ret loaded
  | Some None => raise JSONDecodeError
  | None =>
      lift (logger INFO ("File " +:+ CREDS_FILEPATH +:+ " not found"));;
      ask_credentials credentials
  end.

Definition delete_credentials : M unit :=
  file <- gets creds_file;;
  match file with
  | Some _ =>
      modify (set_creds_file None);;
      logger SUCCESS ("Successfully deleted " +:+ CREDS_FILEPATH)
  | None => ret tt
  end.

(** ** class BeatmapSet: the constructor (lines 80-84) *)

Definition BeatmapSet_init (data : bmset_data) : M BeatmapSet :=
  o <- gets next_oid;;
  modify (set_next_oid (S o));;
  ret {| oid := o;
         set_id := data_id data;
         title := data_title data;
         artist := data_artist data;
         bs_url := "https://osu.ppy.sh/beatmapsets/" +:+ str_of_Z (data_id data) |}.

(** ** class Downloader (lines 91-221) *)

(** [self.beatmapsets.add(x)] *)
Definition beatmapsets_add (x : BeatmapSet) : M unit :=
  modify (λ w, set_beatmapsets (set_add x (beatmapsets w)) w).

(** [self.beatmapsets.pop()]: [KeyError] on an empty set. *)
Definition beatmapsets_pop : M BeatmapSet :=
  s <- gets beatmapsets;;
  n <- gets pops;;
  let i := (sched n mod length s)%nat in
  match s !! i with
  | None => raise KeyError
  | Some x =>
      modify (set_pops (S n));;
      modify (set_beatmapsets (delete i s));;
      ret x
  end.

(** [get_token] (lines 103-110).  The pattern is matched lazily from the
    start of the page: it skips to the first [csrf-token], from there to
    the first [content=] followed by a double quote, and captures up to the
    first double quote followed by a closing angle bracket.  Without a match
    [match.group] fails with [AttributeError]. *)
Definition csrf_regex_match (page : string) : option string :=
  rest ← find_after "csrf-token" page;
  rest ← find_after ("content=" +:+ String dquote "") rest;
  find_before (String dquote ">") rest.

Definition get_token : IO string :=
  homepage <- session_request
    {| meth := GET; url := OSU_URL; params := []; data := ∅; headers := [];
       stream := false |};;
  match csrf_regex_match (text homepage) with
  | Some csrf_token => ret csrf_token
  | None => raise AttributeError
  end.

(** [requests.codes.ok] *)
Definition codes_ok : Z := 200.

(** [login] (lines 112-124).  [data] is the helper's dictionary itself, so
    the token is stored in it. *)
Definition login : IO unit :=
  lift (logger INFO " made by hyeok2044 ");;
  lift (logger INFO (center " DOWNLOADER STARTED " 50 "#"));;
  csrf_token <- get_token;;
  data <- lift (gets credentials);;
  let data := <["_token" := csrf_token]> data in
  lift (modify (set_credentials data));;
  let headers := [("referer", OSU_URL)] in
  res <- session_request
    {| meth := POST; url := OSU_SESSION_URL; params := []; data := data;
       headers := headers; stream := false |};;
  if bool_decide (status_code res ≠ codes_ok) then
    lift (logger ERROR "Login failed");;
    answer <- input ("Do you want to delete the osu! credentials at " +:+ CREDS_FILEPATH +:+ "? (y/n): ");;
    (if lower_is_y answer then lift delete_credentials else ret tt);;
    raise (SystemExit (Some 1))
  else
    lift (logger SUCCESS "Login successful").

(** [scrape_beatmapsets], the numeric branch (lines 146-155).  The inner
    loop compares each nested beatmap id with [int(s)] and stops at the
    first that is equal. *)
Fixpoint scan_beatmaps (s : string) (beatmaps : list Z) : M bool :=
  match beatmaps with
  | [] => ret false
  | oneMap :: beatmaps' =>
      match int_of_str s with
      | None => raise ValueError
      | Some n => if oneMap =? n then ret true else scan_beatmaps s beatmaps'
      end
  end.

Fixpoint scan_beatmapsets (s : string) (sets : list bmset_data) (chkIfExists : bool) : M bool :=
  match sets with
  | [] => ret chkIfExists
  | bmset :: sets' =>
      if negb chkIfExists then
        found <- scan_beatmaps s (data_beatmaps bmset);;
        if found then
          b <- BeatmapSet_init bmset;;
          beatmapsets_add b;;
          scan_beatmapsets s sets' true
        else scan_beatmapsets s sets' chkIfExists
      else scan_beatmapsets s sets' chkIfExists
  end.

(** [self.beatmapsets.update(BeatmapSet(bmset) for bmset in ...)]
    (lines 157-159) *)
Fixpoint beatmapsets_update (sets : list bmset_data) : M unit :=
  match sets with
  | [] => ret tt
  | bmset :: sets' =>
      b <- BeatmapSet_init bmset;;
      beatmapsets_add b;;
      beatmapsets_update sets'
  end.

Definition search_request (s : string) : request :=
  {| meth := GET; url := OSU_SEARCH_URL;
     params := [("m", "0"); ("q", s); ("s", "any")];
     data := ∅; headers := []; stream := false |}.

(** One pass of the loop body for a query that is neither empty nor the
    sentinel (lines 138-159), given what the search request comes back
    with. *)
Definition scrape_query (s : string) (reply : option response) : M unit :=
  response <- session_reply (search_request s) reply;;
  match json response with
  | None => raise (json_exception (bad_json response))
  | Some sets =>
      if str_isnumeric s then
        chkIfExists <- scan_beatmapsets s sets false;;
        if negb chkIfExists then
          logger ERROR ("unable to find the beatmapset with ID: " +:+ s)
        else ret tt
      else beatmapsets_update sets
  end.

(** The loop of lines 133-162.  Every pass starts from a line that was just
    read, by the [input()] before the loop or by the one that ends the
    previous pass: the head of [stdin] is [s]. *)
Fixpoint scrape_loop (num_beatmapsets : nat) (stdin : list string)
    (net : list response) (w : world) : outcome nat * io :=
  match stdin with
  | [] => (Raise EOFError, ([], net, w))
  | s :: stdin' =>
      if bool_decide (s = "-1") then (Ok num_beatmapsets, (stdin', net, w))
      else if bool_decide (s = "") then scrape_loop num_beatmapsets stdin' net w
      else
        match scrape_query s (head net) w with
        | (Ok _, w') => scrape_loop (length (beatmapsets w')) stdin' (tail net) w'
        | (Raise e, w') => (Raise e, (stdin', tail net, w'))
        end
  end.

Definition scrape_beatmapsets : IO unit :=
  lift (logger INFO "Scraping beatmapsets!");;
  lift (logger INFO "Paste the beatmap ID to download one beatmap file or");;
  lift (logger INFO "Search like how you do it in osu");;
  lift (logger INFO "Type -1 at the last line to finish searching.");;
  num_beatmapsets <- (λ '(stdin, net, w), scrape_loop 0 stdin net w);;
  lift (logger SUCCESS
          ("Scraped " +:+ str_of_Z (Z.of_nat num_beatmapsets) +:+ " beatmapsets.")).

(** [remove_existing_beatmapsets] (lines 165-174) *)
Definition isdir (files : gmap string node) (p : string) : bool :=
  match files !! p with
  | Some Dir => true
  | _ => false
  end.

Definition isfile (files : gmap string node) (p : string) : bool :=
  match files !! p with
  | Some (File _) => true
  | _ => false
  end.

Definition already_downloaded (files : gmap string node) (beatmapset : BeatmapSet) : bool :=
  let dir_path := path_join DOWNLOAD_PATH (BeatmapSet_str beatmapset) in
  let file_path := dir_path +:+ ".osz" in
  isdir files dir_path || isfile files file_path.

Fixpoint filter_existing (todo filtered_set : list BeatmapSet) : M (list BeatmapSet) :=
  match todo with
  | [] => ret filtered_set
  | beatmapset :: todo' =>
      files <- gets fs;;
      if already_downloaded files beatmapset then
        logger INFO ("Beatmapset already downloaded: " +:+ BeatmapSet_str beatmapset);;
        filter_existing todo' filtered_set
      else filter_existing todo' (set_add beatmapset filtered_set)
  end.

Definition remove_existing_beatmapsets : M unit :=
  s <- gets beatmapsets;;
  filtered_set <- filter_existing s [];;
  modify (set_beatmapsets filtered_set).

(** [file_size/4096] (line 197) is a division of two [int]s into a float:
    Python raises [OverflowError] when the quotient, rounded to the nearest
    float, is beyond the largest one, that is from [2^1024 - 2^970] on in
    absolute value. *)
Definition true_division_overflows (file_size : Z) : bool :=
  2 ^ 1036 - 2 ^ 982 <=? Z.abs file_size.

(** [write_beatmapset_file] (lines 191-199).  Opening the file fails on a
    directory of that name, without the download directory, and when the
    download directory is a regular file; it leaves an empty file.  The
    total for the progress bar is computed next, inside the [with] block,
    and then the file receives the chunks in order. *)
Definition write_beatmapset_file (filename : string) (data : response) : M unit :=
  let file_path := path_join DOWNLOAD_PATH (filename +:+ ".osz") in
  logger INFO ("Writing file: " +:+ file_path);;
  match resp_headers data !! "content-length" with
  | None => raise KeyError
  | Some v =>
      match int_of_str v with
      | None => raise ValueError
      | Some file_size =>
          files <- gets fs;;
          if isdir files file_path then raise IsADirectoryError
          else
            match files !! DOWNLOAD_PATH with
            | None => raise FileNotFoundError
            | Some (File _) => raise NotADirectoryError
            | Some Dir =>
                modify (set_fs (<[file_path := File ""]> files));;
                if true_division_overflows file_size then raise OverflowError
                else
                  modify (set_fs (<[file_path
                                    := File (String.concat "" (iter_content data))]>
                                    files));;
                  logger SUCCESS "File write successful"
            end
      end
  end.

(** [download_beatmapset_file] (lines 176-189), given what the download
    request comes back with. *)
Definition download_request (no_video : bool) (beatmapset : BeatmapSet) : request :=
  let headers := [("referer", bs_url beatmapset)] in
  let download_url := bs_url beatmapset +:+ "/download" in
  let download_url := if no_video then download_url +:+ "?noVideo=1" else download_url in
  {| meth := GET; url := download_url; params := []; data := ∅;
     headers := headers; stream := true |}.

Definition download_beatmapset_file (beatmapset : BeatmapSet) (reply : option response) : M bool :=
  logger INFO ("Downloading beatmapset: " +:+ BeatmapSet_str beatmapset);;
  nv <- gets no_video;;
  response <- session_reply (download_request nv beatmapset) reply;;
  if bool_decide (status_code response = codes_ok) then
    logger SUCCESS (str_of_Z (status_code response) +:+ " - Download successful");;
    write_beatmapset_file (BeatmapSet_str beatmapset) response;;
    ret true
  else
    logger WARNING (str_of_Z (status_code response) +:+ " - Download failed");;
    ret false.

(** One pass of the loop body of [run] (lines 207-220); the result is the
    new value of [tries]. *)
Definition run_iteration (tries : nat) (reply : option response) : M nat :=
  next_set <- beatmapsets_pop;;
  download_success <- download_beatmapset_file next_set reply;;
  if download_success then
    emit (Sleep 2);;
    ret 0%nat
  else
    beatmapsets_add next_set;;
    let tries := S tries in
    if (4 <? tries)%nat then
      logger ERROR "Failed 5 times in a row";;
      logger INFO "Website download limit reached";;
      logger INFO "Try again later";;
      logger INFO (center " DOWNLOADER TERMINATED " 50 "#" +:+ newline);;
      raise (SystemExit None)
    else ret tries.

(** The loop of lines 206-220.  With no response left the pass runs against
    a failed connection, which raises. *)
Fixpoint run_loop (net : list response) (tries : nat) (w : world)
    : outcome unit * (list response * world) :=
  match beatmapsets w with
  | [] => (Ok tt, (net, w))
  | _ :: _ =>
      match net with
      | [] =>
          let '(o, w') := (run_iteration tries None;; ret tt) w in (o, ([], w'))
      | response :: net' =>
          match run_iteration tries (Some response) w with
          | (Ok tries', w') => run_loop net' tries' w'
          | (Raise e, w') => (Raise e, (net', w'))
          end
      end
  end.

(** The same loop, keeping what [run_loop] goes through: the value of
    [tries] and the process state at the end of each pass that completes. *)
Fixpoint run_passes (net : list response) (tries : nat) (w : world)
    : list (nat * world) :=
  match beatmapsets w with
  | [] => []
  | _ :: _ =>
      match net with
      | [] => []
      | response :: net' =>
          match run_iteration tries (Some response) w with
          | (Ok tries', w') => (tries', w') :: run_passes net' tries' w'
          | (Raise _, _) => []
          end
      end
  end.

Fixpoint log_each (s : list BeatmapSet) : M unit :=
  match s with
  | [] => ret tt
  | beatmapset :: s' => logger INFO (BeatmapSet_str beatmapset);; log_each s'
  end.

Definition run : IO unit :=
  lift (logger INFO "List of beatmaps to be downloaded:");;
  s <- lift (gets beatmapsets);;
  lift (log_each s);;
  (λ '(stdin, net, w),
     let '(o, (net', w')) := run_loop net 0 w in (o, (stdin, net', w')));;
  lift (logger INFO (center " DOWNLOADER FINISHED " 50 "#" +:+ newline)).

(** [Downloader.__init__] (lines 92-101) *)
Definition Downloader_init (limit : Z) (no_video : bool) : IO unit :=
  lift (modify (set_beatmapsets []));;
  lift (modify (set_limit limit));;
  lift (modify (set_no_video no_video));;
  loaded <- load_credentials ∅;;
  lift (modify (set_credentials loaded));;
  login;;
  scrape_beatmapsets;;
  lift remove_existing_beatmapsets.

(** [main] (lines 224-238) *)
Definition main : IO unit :=
  files <- lift (gets fs);;
  (if negb (bool_decide (is_Some (files !! DOWNLOAD_PATH))) then
     lift (modify (set_fs (<[DOWNLOAD_PATH := Dir]> files)))
   else ret tt);;
  file <- lift (gets creds_file);;
  match file with
  | Some (Some loaded) =>
      match loaded !! "username" with
      | Some username =>
          lift (emit (Stdout ("loaded with username :  " +:+ username +:+ newline)))
      | None => raise KeyError
      end
  | Some None => raise JSONDecodeError
  | None =>
      lift (logger INFO ("File " +:+ CREDS_FILEPATH +:+ " not found"));;
      ask_credentials ∅;;
      ret tt
  end;;
  Downloader_init 10 true;;
  run.

(** * Properties *)

(** ** Canonical names *)



Lemma ILLEGAL_CHARS_sub_clean (s : string) (c : ascii) :
  c ∈ String.list_ascii_of_string (ILLEGAL_CHARS_sub s) → ILLEGAL_CHARS c = false.
Proof.
  induction s as [|a s IH]; simpl.
  - intros H. inversion H.
  - intros H. apply elem_of_cons in H as [-> | H]; [|by apply IH].
    destruct (ILLEGAL_CHARS a) eqn:E; [reflexivity | exact E].
Qed.

Lemma ILLEGAL_CHARS_sub_idempotent (s : string) :
  ILLEGAL_CHARS_sub (ILLEGAL_CHARS_sub s) = ILLEGAL_CHARS_sub s.
Proof.
  induction s as [|c s IH]; simpl; [reflexivity|].
  rewrite IH. f_equal.
  destruct (ILLEGAL_CHARS c) eqn:E; [reflexivity | by rewrite E].
Qed.


(** ** The working set as a set of objects *)

(** No object occurs twice, and every identity in use was handed out by
    the allocator. *)
Definition distinct_objects (s : list BeatmapSet) : Prop := NoDup (oid <$> s).

Definition allocated (w : world) : Prop :=
  distinct_objects (beatmapsets w) ∧
  ∀ b, b ∈ beatmapsets w → (oid b < next_oid w)%nat.

Lemma existsb_same_object (x : BeatmapSet) (s : list BeatmapSet) :
  existsb (same_object x) s = true ↔ oid x ∈ oid <$> s.
Proof.
  rewrite existsb_exists, list_elem_of_fmap. unfold same_object.
  split.
  - intros (y & Hy & E). apply Nat.eqb_eq in E. exists y.
    split; [done|]. by apply list_elem_of_In.
  - intros (y & E & Hy). exists y. split; [by apply list_elem_of_In|].
    by apply Nat.eqb_eq.
Qed.

Lemma set_add_present (x : BeatmapSet) (s : list BeatmapSet) :
  oid x ∈ oid <$> s → set_add x s = s.
Proof.
  intros H. unfold set_add.
  by rewrite (proj2 (existsb_same_object x s) H).
Qed.

Lemma set_add_absent (x : BeatmapSet) (s : list BeatmapSet) :
  oid x ∉ oid <$> s → set_add x s = s ++ [x].
Proof.
  intros H. unfold set_add.
  destruct (existsb (same_object x) s) eqn:E; [|done].
  by apply existsb_same_object in E.
Qed.

Lemma distinct_objects_snoc (x : BeatmapSet) (s : list BeatmapSet) :
  distinct_objects s → oid x ∉ oid <$> s → distinct_objects (s ++ [x]).
Proof.
  unfold distinct_objects. intros Hs Hx.
  rewrite fmap_app. apply NoDup_app. split; [done|]. split.
  - intros o Ho Ho'. simpl in Ho'. apply list_elem_of_singleton in Ho'. by subst.
  - simpl. apply NoDup_singleton.
Qed.

Lemma set_add_distinct (x : BeatmapSet) (s : list BeatmapSet) :
  distinct_objects s → distinct_objects (set_add x s).
Proof.
  intros Hs. destruct (decide (oid x ∈ oid <$> s)) as [H|H].
  - by rewrite set_add_present.
  - rewrite set_add_absent by done. by apply distinct_objects_snoc.
Qed.

(** ** The filter on existing artifacts *)

Lemma canonical_name_relative (b : BeatmapSet) :
  strip_prefix "/" (BeatmapSet_str b) = None.
Proof.
  unfold BeatmapSet_str.
  destruct (str_of_Z (set_id b) +:+ " " +:+ artist b +:+ " - " +:+ title b)
    as [|c s]; cbn [strip_prefix ILLEGAL_CHARS_sub]; [reflexivity|].
  destruct (ILLEGAL_CHARS c) eqn:E; [reflexivity|].
  destruct (Ascii.eqb "/" c) eqn:Ec; [|reflexivity].
  apply Ascii.eqb_eq in Ec. subst c. discriminate E.
Qed.

Lemma download_path (b : BeatmapSet) :
  path_join DOWNLOAD_PATH (BeatmapSet_str b) = "./Downloads/" +:+ BeatmapSet_str b.
Proof.
  unfold path_join. rewrite canonical_name_relative. reflexivity.
Qed.

Lemma already_downloaded_iff (files : gmap string node) (b : BeatmapSet) :
  already_downloaded files b = true ↔
  files !! ("./Downloads/" +:+ BeatmapSet_str b) = Some Dir ∨
  ∃ content,
    files !! (("./Downloads/" +:+ BeatmapSet_str b) +:+ ".osz") = Some (File content).
Proof.
  unfold already_downloaded, isdir, isfile. rewrite download_path.
  rewrite orb_true_iff. split.
  - intros [H|H].
    + left. destruct (files !! _) as [[|]|]; done.
    + right. destruct (files !! (_ +:+ ".osz")) as [[|c]|]; try done. by exists c.
  - intros [H|[c H]]; rewrite H; auto.
Qed.

Definition already_log (b : BeatmapSet) : event :=
  Log INFO ("Beatmapset already downloaded: " +:+ BeatmapSet_str b).

Lemma filter_existing_spec (todo filtered_set : list BeatmapSet) (w : world) :
  distinct_objects (filtered_set ++ todo) →
  filter_existing todo filtered_set w
  = (Ok (filtered_set
         ++ List.filter (λ b, negb (already_downloaded (fs w) b)) todo),
     set_trace
       (rev (already_log <$> List.filter (already_downloaded (fs w)) todo)
        ++ trace w) w).
Proof.
  revert filtered_set w.
  induction todo as [|b todo IH]; intros acc w Hnd; simpl.
  - mred. rewrite app_nil_r. by destruct w.
  - mred. destruct (already_downloaded (fs w) b) eqn:E; simpl.
    + rewrite IH; simpl.
      * f_equal. unfold set_trace, already_log; simpl.
        by rewrite <- app_assoc.
      * unfold distinct_objects in *. rewrite fmap_app, fmap_cons in Hnd.
        rewrite fmap_app. apply NoDup_app in Hnd as (H1 & H2 & H3).
        apply NoDup_app. split; [done|]. split.
        -- intros o Ho Ho'. apply (H2 o Ho). by right.
        -- by apply NoDup_cons in H3 as [_ ?].
    + assert (Hb : oid b ∉ oid <$> acc).
      { unfold distinct_objects in Hnd. rewrite fmap_app, fmap_cons in Hnd.
        apply NoDup_app in Hnd as (_ & H2 & _). intros Hin.
        apply (H2 _ Hin). by left. }
      rewrite (set_add_absent _ _ Hb). rewrite IH.
      * by rewrite <- app_assoc.
      * by rewrite <- app_assoc.
Qed.

Lemma filter_count {A} (f : A → bool) (l : list A) :
  (length (List.filter (λ x, negb (f x)) l)
   = length l - length (List.filter f l))%nat
  ∧ (length (List.filter f l) ≤ length l)%nat.
Proof.
  induction l as [|x l [IH1 IH2]]; simpl; [done|].
  destruct (f x); simpl; lia.
Qed.

(** C6. For a working set of N records of which exactly M have a matching
    artifact (a directory named by the canonical name, or a file named by
    the canonical name plus the archive extension), the filter leaves
    exactly the N - M records without one, in the working set's order, and
    changes neither the file system nor the credentials file. *)
Theorem remove_existing_beatmapsets_count (w : world) (N M : nat) :
  distinct_objects (beatmapsets w) →
  N = length (beatmapsets w) →
  M = length (List.filter (already_downloaded (fs w)) (beatmapsets w)) →
  ∃ w', remove_existing_beatmapsets w = (Ok tt, w') ∧
        (M ≤ N)%nat ∧
        length (beatmapsets w') = (N - M)%nat ∧
        beatmapsets w'
        = List.filter (λ b, negb (already_downloaded (fs w) b)) (beatmapsets w) ∧
        (∀ b, b ∈ beatmapsets w' ↔
              b ∈ beatmapsets w ∧
              ¬ (fs w !! ("./Downloads/" +:+ BeatmapSet_str b) = Some Dir ∨
                 ∃ content,
                   fs w !! (("./Downloads/" +:+ BeatmapSet_str b) +:+ ".osz")
                   = Some (File content))) ∧
        fs w' = fs w ∧ creds_file w' = creds_file w.
Proof.
  intros Hnd -> ->. unfold remove_existing_beatmapsets. mred.
  rewrite filter_existing_spec by done. simpl.
  eexists. split; [reflexivity|]. simpl.
  destruct (filter_count (already_downloaded (fs w)) (beatmapsets w)) as [H1 H2].
  split; [done|]. split; [done|]. split; [done|]. split; [|done].
  intros b.
  rewrite list_elem_of_In, filter_In, negb_true_iff, <- list_elem_of_In.
  by rewrite <- already_downloaded_iff, not_true_iff_false.
Qed.

(** ** Writing a downloaded file *)

Definition no_usable_length (data : response) : Prop :=
  resp_headers data !! "content-length" = None ∨
  ∃ v, resp_headers data !! "content-length" = Some v ∧ int_of_str v = None.

(** C10. The content-length header is parsed before the output file is
    opened: for a response without the header, or with a value that [int]
    rejects, [write_beatmapset_file] raises ([KeyError] or [ValueError]) and
    leaves the file system as it was, and so does the download of a record
    whose response has the ok status. *)
Theorem content_length_parsed_before_open
    (beatmapset : BeatmapSet) (filename : string) (data : response) (w : world) :
  no_usable_length data →
  (∃ e w', write_beatmapset_file filename data w = (Raise e, w') ∧
           (e = KeyError ∨ e = ValueError) ∧ fs w' = fs w) ∧
  (status_code data = codes_ok →
   ∃ e w', download_beatmapset_file beatmapset (Some data) w = (Raise e, w') ∧
           (e = KeyError ∨ e = ValueError) ∧ fs w' = fs w).
Proof.
  intros Hbad. split.
  - unfold write_beatmapset_file. mred.
    destruct Hbad as [-> | (v & -> & ->)]; simpl; eauto 6.
  - intros Hok. unfold download_beatmapset_file, session_reply. mred.
    rewrite bool_decide_eq_true_2 by done.
    unfold write_beatmapset_file. mred.
    destruct Hbad as [-> | (v & -> & ->)]; simpl; eauto 6.
Qed.

(** ** The record collector: a numeric query without a match *)

Lemma scan_beatmaps_miss (s : string) (n : Z) (beatmaps : list Z) (w : world) :
  int_of_str s = Some n → n ∉ beatmaps →
  scan_beatmaps s beatmaps w = (Ok false, w).
Proof.
  intros Hn. induction beatmaps as [|m beatmaps IH]; intros Hnot; simpl.
  - reflexivity.
  - rewrite Hn. apply not_elem_of_cons in Hnot as [Hne Hnot].
    destruct (Z.eqb_spec m n) as [->|_]; [done|]. by apply IH.
Qed.

Lemma scan_beatmapsets_miss (s : string) (n : Z) (sets : list bmset_data) (w : world) :
  int_of_str s = Some n →
  Forall (λ bmset, n ∉ data_beatmaps bmset) sets →
  scan_beatmapsets s sets false w = (Ok false, w).
Proof.
  intros Hn. induction 1 as [|bmset sets Hb _ IH]; simpl; [reflexivity|].
  unfold bind. by rewrite (scan_beatmaps_miss s n _ w Hn Hb).
Qed.

Definition not_found_log (s : string) : event :=
  Log ERROR ("unable to find the beatmapset with ID: " +:+ s).

(** C8. A query that is fully numeric and whose integer is the id of no
    beatmap in any returned set costs one search request and one
    not-found log entry, leaves the working set and everything else as it
    was, and the collection loop goes on with the next line. *)
Theorem numeric_query_miss
    (s : string) (n : Z) (stdin : list string) (r : response)
    (sets : list bmset_data) (net : list response)
    (num_beatmapsets : nat) (w : world) :
  s ≠ "-1" → s ≠ "" →
  str_isnumeric s = true →
  int_of_str s = Some n →
  json r = Some sets →
  Forall (λ bmset, n ∉ data_beatmaps bmset) sets →
  scrape_query s (Some r) w
  = (Ok tt, set_trace (not_found_log s :: Http (search_request s) :: trace w) w) ∧
  scrape_loop num_beatmapsets (s :: stdin) (r :: net) w
  = scrape_loop (length (beatmapsets w)) stdin net
      (set_trace (not_found_log s :: Http (search_request s) :: trace w) w).
Proof.
  intros Hs1 Hs2 Hnum Hn Hjson Hmiss.
  assert (Hq : scrape_query s (Some r) w
               = (Ok tt, set_trace (not_found_log s
                                    :: Http (search_request s) :: trace w) w)).
  { unfold scrape_query, session_reply. mred. rewrite Hjson, Hnum.
    rewrite (scan_beatmapsets_miss s n sets _ Hn Hmiss). reflexivity. }
  split; [exact Hq|].
  simpl. rewrite bool_decide_eq_false_2 by done.
  rewrite bool_decide_eq_false_2 by done.
  rewrite Hq. reflexivity.
Qed.

(** ** The download engine *)

Definition is_request (e : event) : bool :=
  match e with
  | Http _ => true
  | _ => false
  end.

(** The number of HTTP requests among the effects. *)
Definition requests (t : list event) : nat := length (List.filter is_request t).

Lemma beatmapsets_pop_nonempty (w : world) :
  beatmapsets w ≠ [] →
  ∃ i x, beatmapsets w !! i = Some x ∧
         beatmapsets_pop w
         = (Ok x, set_beatmapsets (delete i (beatmapsets w))
                    (set_pops (S (pops w)) w)).
Proof.
  intros Hne. unfold beatmapsets_pop. mred.
  set (i := (sched (pops w) mod length (beatmapsets w))%nat).
  assert (Hi : (i < length (beatmapsets w))%nat).
  { apply Nat.mod_upper_bound. destruct (beatmapsets w); simpl; [done | lia]. }
  destruct (lookup_lt_is_Some_2 _ _ Hi) as [x Hx].
  exists i, x. split; [done|]. by rewrite Hx.
Qed.

Lemma popped_object_gone (s : list BeatmapSet) (i : nat) (x : BeatmapSet) :
  distinct_objects s → s !! i = Some x → oid x ∉ oid <$> delete i s.
Proof.
  unfold distinct_objects. intros Hnd Hx.
  rewrite (delete_Permutation s i x Hx) in Hnd.
  rewrite fmap_cons in Hnd. by apply NoDup_cons in Hnd as [? _].
Qed.

Lemma pop_then_add (s : list BeatmapSet) (i : nat) (x : BeatmapSet) :
  distinct_objects s → s !! i = Some x →
  set_add x (delete i s) = delete i s ++ [x] ∧ delete i s ++ [x] ≡ₚ s.
Proof.
  intros Hnd Hx. split.
  - apply set_add_absent. by apply popped_object_gone.
  - rewrite (delete_Permutation s i x Hx) at 2.
    by rewrite Permutation_app_comm.
Qed.

Lemma distinct_objects_perm (s s' : list BeatmapSet) :
  s ≡ₚ s' → distinct_objects s → distinct_objects s'.
Proof. unfold distinct_objects. by intros ->. Qed.

Lemma distinct_objects_delete (s : list BeatmapSet) (i : nat) :
  distinct_objects s → distinct_objects (delete i s).
Proof.
  unfold distinct_objects. intros Hnd.
  eapply sublist_NoDup; [exact Hnd|].
  apply fmap_sublist, sublist_delete.
Qed.

(** What a pass that fails leaves behind: the same records, the same
    files, one more request. *)
Definition retried (w w' : world) : Prop :=
  beatmapsets w' ≡ₚ beatmapsets w ∧
  fs w' = fs w ∧
  no_video w' = no_video w ∧
  requests (trace w') = S (requests (trace w)).

Lemma run_iteration_failure (tries : nat) (r : response) (w : world) :
  beatmapsets w ≠ [] → distinct_objects (beatmapsets w) →
  status_code r ≠ codes_ok →
  ∃ w', retried w w' ∧
        run_iteration tries (Some r) w
        = if (4 <? S tries)%nat then (Raise (SystemExit None), w')
          else (Ok (S tries), w').
Proof.
  intros Hne Hnd Hst.
  destruct (beatmapsets_pop_nonempty w Hne) as (i & x & Hx & Hpop).
  destruct (pop_then_add _ i x Hnd Hx) as [Hadd Hperm].
  unfold run_iteration, bind at 1. rewrite Hpop.
  unfold download_beatmapset_file, session_reply, beatmapsets_add. mred.
  rewrite bool_decide_eq_false_2 by done. simpl. rewrite Hadd.
  destruct (4 <? S tries)%nat; simpl.
  - eexists. split; [|reflexivity]. by repeat split.
  - eexists. split; [|reflexivity]. by repeat split.
Qed.

Lemma run_loop_failures (fails rest : list response) (tries : nat) (w : world) :
  (tries + length fails = 5)%nat → fails ≠ [] →
  Forall (λ r, status_code r ≠ codes_ok) fails →
  beatmapsets w ≠ [] → distinct_objects (beatmapsets w) →
  ∃ w', run_loop (fails ++ rest) tries w = (Raise (SystemExit None), (rest, w')) ∧
        beatmapsets w' ≡ₚ beatmapsets w ∧
        fs w' = fs w ∧
        requests (trace w') = (requests (trace w) + length fails)%nat ∧
        fst <$> run_passes (fails ++ rest) tries w
        = seq (S tries) (length fails - 1) ∧
        Forall (λ p, beatmapsets p.2 ≡ₚ beatmapsets w)
               (run_passes (fails ++ rest) tries w).
Proof.
  revert tries w.
  induction fails as [|r fails IH]; intros tries w Hlen Hnil Hfail Hne Hnd;
    [done|].
  apply Forall_cons in Hfail as [Hr Hfail].
  destruct (run_iteration_failure tries r w Hne Hnd Hr)
    as (w1 & (Hperm & Hfs & Hnv & Hreq) & Hit).
  simpl in Hlen. simpl.
  destruct (beatmapsets w) as [|b0 s0] eqn:Hs; [done|].
  rewrite Hit. destruct (Nat.ltb_spec 4 (S tries)) as [Hlt|Hge].
  - assert (fails = []) as -> by (destruct fails; [done | simpl in Hlen; lia]).
    exists w1. simpl. repeat split; try done. lia.
  - assert (Hne1 : beatmapsets w1 ≠ []).
    { intros E. rewrite E in Hperm. by apply Permutation_nil_l in Hperm. }
    assert (Hnd1 : distinct_objects (beatmapsets w1)).
    { eapply distinct_objects_perm; [symmetry; exact Hperm | done]. }
    assert (Hnil1 : fails ≠ []) by (destruct fails; [simpl in Hlen; lia | done]).
    destruct (IH (S tries) w1 ltac:(lia) Hnil1 Hfail Hne1 Hnd1)
      as (w' & Hrun & Hp' & Hfs' & Hreq' & Htr & Hall).
    exists w'. rewrite Hrun. split; [done|]. split; [by rewrite Hp'|].
    split; [congruence|]. split; [lia|]. split.
    + rewrite fmap_cons, Htr. simpl.
      destruct fails as [|r' fails]; [done|]. simpl. by rewrite Nat.sub_0_r.
    + apply Forall_cons. split; [done|].
      eapply Forall_impl; [exact Hall|]. intros p Hp. by rewrite Hp.
Qed.

(** C2. From the start of a streak (counter 0, some record left), five
    download responses in a row that are not ok end the run with
    [sys.exit]: the responses after the fifth are never requested, exactly
    five requests were made, and the records that failed were put back
    before each retry, so the working set at each retry and at the exit
    holds the same records as before the streak. *)
Theorem five_failures_terminate (fails rest : list response) (w : world) :
  beatmapsets w ≠ [] → distinct_objects (beatmapsets w) →
  length fails = 5%nat →
  Forall (λ r, status_code r ≠ codes_ok) fails →
  ∃ w', run_loop (fails ++ rest) 0 w = (Raise (SystemExit None), (rest, w')) ∧
        requests (trace w') = (requests (trace w) + 5)%nat ∧
        beatmapsets w' ≡ₚ beatmapsets w ∧
        fst <$> run_passes (fails ++ rest) 0 w = [1; 2; 3; 4]%nat ∧
        Forall (λ p, beatmapsets p.2 ≡ₚ beatmapsets w)
               (run_passes (fails ++ rest) 0 w) ∧
        fs w' = fs w.
Proof.
  intros Hne Hnd Hlen Hfail.
  assert (Hnil : fails ≠ []) by (by intros ->).
  destruct (run_loop_failures fails rest 0 w ltac:(by rewrite Hlen) Hnil Hfail Hne Hnd)
    as (w' & H1 & H2 & H3 & H4 & H5 & H6).
  exists w'. rewrite Hlen in H4, H5. by repeat split.
Qed.

(** *** The counter of consecutive failures *)













Lemma log_each_trace (s : list BeatmapSet) (w : world) :
  log_each s w
  = (Ok tt, set_trace (rev (Log INFO <$> (BeatmapSet_str <$> s)) ++ trace w) w).
Proof.
  revert w. induction s as [|b s IH]; intros w; simpl.
  - by destruct w.
  - mred. rewrite IH. simpl. f_equal. unfold set_trace. simpl.
    by rewrite <- app_assoc.
Qed.

(** The process state when [run] reaches its loop: the list of records has
    been logged. *)
Definition announced (w : world) : world :=
  set_trace (rev (Log INFO <$> (BeatmapSet_str <$> beatmapsets w))
             ++ Log INFO "List of beatmaps to be downloaded:" :: trace w) w.

Lemma run_enters_loop (stdin : list string) (net : list response) (w : world) :
  run (stdin, net, w)
  = match run_loop net 0 (announced w) with
    | (Ok _, (net', w')) =>
        (Ok tt, (stdin, net',
                 set_trace (Log INFO (center " DOWNLOADER FINISHED " 50 "#" +:+ newline)
                            :: trace w') w'))
    | (Raise e, (net', w')) => (Raise e, (stdin, net', w'))
    end.
Proof.
  unfold run, lift, bind. mred. rewrite log_each_trace. simpl.
  change (set_trace _ (set_trace _ w)) with (announced w).
  by destruct (run_loop net 0 (announced w)) as [[[]|e] [net' w']].
Qed.


(** ** Success is the status 200 *)





(** ** The record collector: what the working set is unique by *)

(** The record [BeatmapSet(bmset)] constructs when the allocator stands
    at [o]. *)
Definition constructed (o : nat) (bmset : bmset_data) : BeatmapSet :=
  {| oid := o; set_id := data_id bmset; title := data_title bmset;
     artist := data_artist bmset;
     bs_url := "https://osu.ppy.sh/beatmapsets/" +:+ str_of_Z (data_id bmset) |}.

(** Everything but the working set, the allocator and the effects is as
    before. *)
Definition collected (w w' : world) : Prop :=
  fs w' = fs w ∧ creds_file w' = creds_file w ∧ limit w' = limit w ∧
  no_video w' = no_video w ∧ credentials w' = credentials w ∧ pops w' = pops w.

Lemma collected_refl (w : world) : collected w w.
Proof. by repeat split. Qed.

Lemma collected_trans (w1 w2 w3 : world) :
  collected w1 w2 → collected w2 w3 → collected w1 w3.
Proof.
  intros (?&?&?&?&?&?) (?&?&?&?&?&?). repeat split; congruence.
Qed.

Lemma insert_constructed (bmset : bmset_data) (w : world) :
  allocated w →
  ∃ w', (b <- BeatmapSet_init bmset;; beatmapsets_add b) w = (Ok tt, w') ∧
        beatmapsets w' = beatmapsets w ++ [constructed (next_oid w) bmset] ∧
        allocated w' ∧ collected w w'.
Proof.
  intros [Hnd Hlt]. unfold BeatmapSet_init, beatmapsets_add. mred.
  fold (constructed (next_oid w) bmset).
  assert (Hfresh : oid (constructed (next_oid w) bmset) ∉ oid <$> beatmapsets w).
  { simpl. intros Hin. apply list_elem_of_fmap in Hin as (b & E & Hb).
    specialize (Hlt b Hb). lia. }
  rewrite (set_add_absent _ _ Hfresh).
  eexists. split; [reflexivity|]. simpl. split; [done|]. split.
  - split; simpl.
    + by apply distinct_objects_snoc.
    + intros b Hb. apply elem_of_app in Hb as [Hb|Hb].
      * specialize (Hlt b Hb). lia.
      * apply list_elem_of_singleton in Hb as ->. simpl. lia.
  - by repeat split.
Qed.

Lemma beatmapsets_update_spec (sets : list bmset_data) (w : world) :
  allocated w →
  ∃ w' added, beatmapsets_update sets w = (Ok tt, w') ∧
              beatmapsets w' = beatmapsets w ++ added ∧
              set_id <$> added = data_id <$> sets ∧
              allocated w' ∧ collected w w'.
Proof.
  revert w. induction sets as [|bmset sets IH]; intros w Hw; simpl.
  - exists w, []. rewrite app_nil_r. split; [done|].
    repeat split; try done; apply Hw.
  - destruct (insert_constructed bmset w Hw) as (w1 & H1 & Hb1 & Hw1 & Hc1).
    unfold bind in H1. unfold bind at 1.
    destruct (BeatmapSet_init bmset w) as [[b|e] w0]; [|done].
    unfold bind at 1. rewrite H1.
    destruct (IH w1 Hw1) as (w' & added & -> & Hb' & Hids & Hw' & Hc').
    exists w', (constructed (next_oid w) bmset :: added).
    split; [done|]. split; [by rewrite Hb', Hb1, <- app_assoc|].
    split; [by rewrite !fmap_cons, Hids|]. split; [done|].
    by eapply collected_trans.
Qed.

Lemma scan_beatmaps_pure (s : string) (beatmaps : list Z) (w : world) :
  snd (scan_beatmaps s beatmaps w) = w.
Proof.
  induction beatmaps as [|m beatmaps IH]; simpl; [done|].
  destruct (int_of_str s); [|done]. by destruct (m =? _).
Qed.

Lemma bind_inv {S A B} (c : ST S A) (k : A → ST S B) (s s' : S) (o : outcome B) :
  bind c k s = (o, s') →
  (∃ a s1, c s = (Ok a, s1) ∧ k a s1 = (o, s')) ∨
  (∃ e, c s = (Raise e, s') ∧ o = Raise e).
Proof.
  unfold bind. destruct (c s) as [[a|e] s1].
  - intros H. left. by exists a, s1.
  - intros [= <- <-]. right. by exists e.
Qed.

Lemma scan_beatmapsets_allocated (s : string) (sets : list bmset_data)
    (chkIfExists : bool) (w w' : world) (o : outcome bool) :
  scan_beatmapsets s sets chkIfExists w = (o, w') →
  allocated w → allocated w' ∧ collected w w'.
Proof.
  revert chkIfExists w.
  induction sets as [|bmset sets IH]; intros chk w; simpl.
  - intros [= _ <-] Hw. split; [done | apply collected_refl].
  - destruct chk; simpl; [by apply IH|].
    intros H Hw.
    pose proof (scan_beatmaps_pure s (data_beatmaps bmset) w) as Hpure.
    apply bind_inv in H as [(found & w0 & E & H) | (e & E & _)];
      rewrite E in Hpure; simpl in Hpure; subst;
      [|split; [done | apply collected_refl]].
    destruct found; [|by eapply IH].
    destruct (insert_constructed bmset w Hw) as (w1 & H1 & _ & Hw1 & Hc1).
    apply bind_inv in H1 as [(b & w0 & Eb & H1) | (e & _ & ?)]; [|done].
    apply bind_inv in H as [(b' & w0' & Eb' & H) | (e & Eb' & _)];
      [|by rewrite Eb in Eb'].
    rewrite Eb in Eb'. injection Eb' as <- <-.
    apply bind_inv in H as [([] & w2 & E2 & H) | (e & E2 & _)];
      [|by rewrite H1 in E2].
    rewrite H1 in E2. injection E2 as <-.
    destruct (IH true w1 H Hw1) as [Ha Hc]. split; [done|].
    by eapply collected_trans.
Qed.

Lemma scrape_query_allocated (s : string) (reply : option response)
    (w w' : world) (o : outcome unit) :
  scrape_query s reply w = (o, w') →
  allocated w → allocated w' ∧ collected w w'.
Proof.
  intros H Hw. unfold scrape_query, session_reply in H. mred_in H.
  destruct reply as [r|]; simpl in H; [|by injection H as _ <-].
  destruct (json r) as [sets|]; simpl in H; [|by injection H as _ <-].
  destruct (str_isnumeric s).
  - apply bind_inv in H as [(chk & w1 & E & H) | (e & E & _)].
    + apply scan_beatmapsets_allocated in E as [Ha Hc]; [|done].
      destruct chk; simpl in H; by injection H as _ <-.
    + by apply scan_beatmapsets_allocated in E.
  - destruct (beatmapsets_update_spec sets
                (set_trace (Http (search_request s) :: trace w) w))
      as (w1 & added & E & _ & _ & Ha & Hc); [done|].
    rewrite E in H. by injection H as _ <-.
Qed.

Lemma scrape_loop_allocated (num_beatmapsets : nat) (stdin : list string)
    (net : list response) (w : world) :
  allocated w →
  allocated (scrape_loop num_beatmapsets stdin net w).2.2 ∧
  collected w (scrape_loop num_beatmapsets stdin net w).2.2.
Proof.
  revert num_beatmapsets net w.
  induction stdin as [|s stdin IH]; intros num net w Hw; simpl.
  - split; [done | apply collected_refl].
  - destruct (bool_decide (s = "-1")); simpl.
    { split; [done | apply collected_refl]. }
    destruct (bool_decide (s = "")); [by apply IH|].
    destruct (scrape_query s (head net) w) as [[[]|e] w1] eqn:E;
      apply scrape_query_allocated in E as [Ha Hc]; try done; simpl.
    destruct (IH (length (beatmapsets w1)) (tail net) w1 Ha) as [Ha' Hc'].
    split; [done|]. by eapply collected_trans.
Qed.

(** What the working set is unique by, in the code as it is: whatever
    lines and search results the collector is fed, no object occurs twice
    in the resulting working set, and adding an object that is in the set
    leaves the set as it is; but every search result of a free-text query
    is constructed as a new object and added, so the records added carry
    the set_ids of the results one for one, whether or not the set held
    records with those set_ids. *)
Theorem working_set_unique_by_object :
  (∀ num_beatmapsets stdin net w,
     allocated w →
     distinct_objects (scrape_loop num_beatmapsets stdin net w).2.2.(beatmapsets)) ∧
  (∀ x s, oid x ∈ oid <$> s → set_add x s = s) ∧
  (∀ sets w,
     allocated w →
     ∃ w' added, beatmapsets_update sets w = (Ok tt, w') ∧
                 beatmapsets w' = beatmapsets w ++ added ∧
                 set_id <$> added = data_id <$> sets).
Proof.
  split; [|split].
  - intros num stdin net w Hw.
    by destruct (scrape_loop_allocated num stdin net w Hw) as [[? _] _].
  - apply set_add_present.
  - intros sets w Hw.
    destruct (beatmapsets_update_spec sets w Hw) as (w' & added & ? & ? & ? & _).
    by exists w', added.
Qed.

(** ** The stored limit is never read *)

(** A computation is blind to the limit when changing the stored limit
    beforehand changes nothing but the stored limit afterwards. *)
Definition blind {A} (c : M A) : Prop :=
  ∀ l w, c (set_limit l w) = ((c w).1, set_limit l (c w).2).

Definition blind_io {A} (c : IO A) : Prop :=
  ∀ l stdin net w,
    c (stdin, net, set_limit l w)
    = ((c (stdin, net, w)).1,
       ((c (stdin, net, w)).2.1, set_limit l (c (stdin, net, w)).2.2)).

Lemma blind_ret {A} (a : A) : blind (ret a).
Proof. done. Qed.

Lemma blind_raise {A} (e : exn) : blind (raise (A := A) e).
Proof. done. Qed.

Lemma blind_bind {A B} (c : M A) (k : A → M B) :
  blind c → (∀ a, blind (k a)) → blind (bind c k).
Proof.
  intros Hc Hk l w. unfold bind. rewrite Hc.
  destruct (c w) as [[a|e] w1]; simpl; [apply Hk | done].
Qed.

Lemma blind_gets {A} (f : world → A) :
  (∀ l w, f (set_limit l w) = f w) → blind (gets f).
Proof. intros Hf l w. unfold gets. simpl. by rewrite Hf. Qed.

Lemma blind_modify (f : world → world) :
  (∀ l w, f (set_limit l w) = set_limit l (f w)) → blind (modify f).
Proof. intros Hf l w. unfold modify. simpl. by rewrite Hf. Qed.

Ltac blind_step :=
  first
    [ apply blind_ret
    | apply blind_raise
    | apply blind_gets; reflexivity
    | apply blind_modify; reflexivity
    | apply blind_bind; [|intros ?]
    | match goal with
      | |- blind (if ?b then _ else _) => destruct b
      | |- blind (match ?x with _ => _ end) => destruct x
      end
    | assumption ].

Ltac blind_tac := repeat blind_step.

Lemma logger_blind (lv : level) (msg : string) : blind (logger lv msg).
Proof. unfold logger, emit. blind_tac. Qed.

Lemma emit_blind (e : event) : blind (emit e).
Proof. unfold emit. blind_tac. Qed.

Lemma session_reply_blind (req : request) (reply : option response) :
  blind (session_reply req reply).
Proof. unfold session_reply, emit. blind_tac. Qed.

Lemma save_credentials_blind (c : gmap string string) : blind (save_credentials c).
Proof. unfold save_credentials. blind_tac. Qed.

Lemma delete_credentials_blind : blind delete_credentials.
Proof. unfold delete_credentials, logger, emit. blind_tac. Qed.

Lemma BeatmapSet_init_blind (d : bmset_data) : blind (BeatmapSet_init d).
Proof. unfold BeatmapSet_init. blind_tac. Qed.

Lemma beatmapsets_add_blind (x : BeatmapSet) : blind (beatmapsets_add x).
Proof. unfold beatmapsets_add. blind_tac. Qed.

Lemma beatmapsets_pop_blind : blind beatmapsets_pop.
Proof. unfold beatmapsets_pop. blind_tac. Qed.

Lemma scan_beatmaps_blind (s : string) (beatmaps : list Z) :
  blind (scan_beatmaps s beatmaps).
Proof. induction beatmaps as [|m beatmaps IH]; simpl; blind_tac. Qed.

Lemma scan_beatmapsets_blind (s : string) (sets : list bmset_data) (chk : bool) :
  blind (scan_beatmapsets s sets chk).
Proof.
  revert chk. induction sets as [|bmset sets IH]; intros chk; simpl.
  - blind_tac.
  - destruct chk; simpl; [apply IH|].
    apply blind_bind; [apply scan_beatmaps_blind|]. intros [|]; [|apply IH].
    apply blind_bind; [apply BeatmapSet_init_blind|]. intros b.
    apply blind_bind; [apply beatmapsets_add_blind|]. intros _. apply IH.
Qed.

Lemma beatmapsets_update_blind (sets : list bmset_data) :
  blind (beatmapsets_update sets).
Proof.
  induction sets as [|bmset sets IH]; simpl; [blind_tac|].
  apply blind_bind; [apply BeatmapSet_init_blind|]. intros b.
  apply blind_bind; [apply beatmapsets_add_blind|]. by intros _.
Qed.

Lemma scrape_query_blind (s : string) (reply : option response) :
  blind (scrape_query s reply).
Proof.
  unfold scrape_query.
  apply blind_bind; [apply session_reply_blind|]. intros r.
  destruct (json r) as [sets|]; [|blind_tac].
  destruct (str_isnumeric s); [|apply beatmapsets_update_blind].
  apply blind_bind; [apply scan_beatmapsets_blind|]. intros [|]; simpl.
  - blind_tac.
  - apply logger_blind.
Qed.

Lemma filter_existing_blind (todo filtered_set : list BeatmapSet) :
  blind (filter_existing todo filtered_set).
Proof.
  revert filtered_set. induction todo as [|b todo IH]; intros acc; simpl.
  - blind_tac.
  - apply blind_bind; [blind_tac|]. intros files.
    destruct (already_downloaded files b); [|apply IH].
    apply blind_bind; [apply logger_blind|]. intros _. apply IH.
Qed.

Lemma remove_existing_beatmapsets_blind : blind remove_existing_beatmapsets.
Proof.
  unfold remove_existing_beatmapsets.
  apply blind_bind; [blind_tac|]. intros s.
  apply blind_bind; [apply filter_existing_blind|]. intros f. blind_tac.
Qed.

Lemma write_beatmapset_file_blind (filename : string) (r : response) :
  blind (write_beatmapset_file filename r).
Proof.
  unfold write_beatmapset_file.
  apply blind_bind; [apply logger_blind|]. intros _.
  destruct (resp_headers r !! "content-length") as [v|]; [|blind_tac].
  destruct (int_of_str v); [|blind_tac].
  apply blind_bind; [blind_tac|]. intros files.
  destruct (isdir files _); [blind_tac|].
  destruct (files !! DOWNLOAD_PATH) as [[|c]|]; [|blind_tac..].
  apply blind_bind; [blind_tac|]. intros _.
  destruct (true_division_overflows _); [blind_tac|].
  apply blind_bind; [blind_tac|]. intros _. apply logger_blind.
Qed.

Lemma download_beatmapset_file_blind (b : BeatmapSet) (reply : option response) :
  blind (download_beatmapset_file b reply).
Proof.
  unfold download_beatmapset_file.
  apply blind_bind; [apply logger_blind|]. intros _.
  apply blind_bind; [blind_tac|]. intros nv.
  apply blind_bind; [apply session_reply_blind|]. intros r.
  destruct (bool_decide _).
  - apply blind_bind; [apply logger_blind|]. intros _.
    apply blind_bind; [apply write_beatmapset_file_blind|]. intros _. blind_tac.
  - apply blind_bind; [apply logger_blind|]. intros _. blind_tac.
Qed.

Lemma run_iteration_blind (tries : nat) (reply : option response) :
  blind (run_iteration tries reply).
Proof.
  unfold run_iteration.
  apply blind_bind; [apply beatmapsets_pop_blind|]. intros x.
  apply blind_bind; [apply download_beatmapset_file_blind|]. intros [|].
  - apply blind_bind; [apply emit_blind|]. intros _. blind_tac.
  - apply blind_bind; [apply beatmapsets_add_blind|]. intros _.
    destruct (4 <? S tries)%nat; [|blind_tac].
    repeat (apply blind_bind; [apply logger_blind|]; intros _). blind_tac.
Qed.

Lemma log_each_blind (s : list BeatmapSet) : blind (log_each s).
Proof.
  induction s as [|b s IH]; simpl; [blind_tac|].
  apply blind_bind; [apply logger_blind|]. by intros _.
Qed.

Lemma blind_io_ret {A} (a : A) : blind_io (ret a).
Proof. done. Qed.

Lemma blind_io_raise {A} (e : exn) : blind_io (raise (A := A) e).
Proof. done. Qed.

Lemma blind_io_bind {A B} (c : IO A) (k : A → IO B) :
  blind_io c → (∀ a, blind_io (k a)) → blind_io (bind c k).
Proof.
  intros Hc Hk l stdin net w. unfold bind. rewrite Hc.
  destruct (c (stdin, net, w)) as [[a|e] [[stdin' net'] w1]]; simpl;
    [apply Hk | done].
Qed.

Lemma blind_io_lift {A} (c : M A) : blind c → blind_io (lift c).
Proof.
  intros Hc l stdin net w. unfold lift. rewrite Hc.
  by destruct (c w) as [o w1].
Qed.

Lemma input_blind (prompt : string) : blind_io (input prompt).
Proof. intros l stdin net w. unfold input. by destruct stdin. Qed.

Lemma session_request_blind (req : request) : blind_io (session_request req).
Proof.
  intros l stdin net w. unfold session_request.
  rewrite session_reply_blind.
  by destruct (session_reply req (head net) w) as [o w1].
Qed.

Lemma ask_credentials_blind (c : gmap string string) : blind_io (ask_credentials c).
Proof.
  unfold ask_credentials.
  apply blind_io_bind; [apply input_blind|]. intros username.
  apply blind_io_bind; [apply input_blind|]. intros password.
  apply blind_io_bind; [apply input_blind|]. intros answer.
  apply blind_io_bind; [|intros _; apply blind_io_ret].
  destruct (lower_is_y answer); [|apply blind_io_ret].
  apply blind_io_lift, save_credentials_blind.
Qed.

Lemma load_credentials_blind (c : gmap string string) : blind_io (load_credentials c).
Proof.
  unfold load_credentials.
  apply blind_io_bind; [apply blind_io_lift; blind_tac|]. intros [[loaded|]|].
  - apply blind_io_ret.
  - apply blind_io_raise.
  - apply blind_io_bind; [apply blind_io_lift, logger_blind|]. intros _.
    apply ask_credentials_blind.
Qed.

Lemma get_token_blind : blind_io get_token.
Proof.
  unfold get_token.
  apply blind_io_bind; [apply session_request_blind|]. intros homepage.
  destruct (csrf_regex_match _); [apply blind_io_ret | apply blind_io_raise].
Qed.

Lemma login_blind : blind_io login.
Proof.
  unfold login.
  apply blind_io_bind; [apply blind_io_lift, logger_blind|]. intros _.
  apply blind_io_bind; [apply blind_io_lift, logger_blind|]. intros _.
  apply blind_io_bind; [apply get_token_blind|]. intros csrf_token.
  apply blind_io_bind; [apply blind_io_lift; blind_tac|]. intros d.
  apply blind_io_bind; [apply blind_io_lift; blind_tac|]. intros _.
  apply blind_io_bind; [apply session_request_blind|]. intros res.
  destruct (bool_decide _); [|apply blind_io_lift, logger_blind].
  apply blind_io_bind; [apply blind_io_lift, logger_blind|]. intros _.
  apply blind_io_bind; [apply input_blind|]. intros answer.
  apply blind_io_bind; [|intros _; apply blind_io_raise].
  destruct (lower_is_y answer); [|apply blind_io_ret].
  apply blind_io_lift, delete_credentials_blind.
Qed.

Lemma scrape_loop_blind (num_beatmapsets : nat) :
  blind_io (λ '(stdin, net, w), scrape_loop num_beatmapsets stdin net w).
Proof.
  intros l stdin. revert num_beatmapsets.
  induction stdin as [|s stdin IH]; intros num net w; simpl; [done|].
  destruct (bool_decide (s = "-1")); [done|].
  destruct (bool_decide (s = "")); [apply IH|].
  rewrite scrape_query_blind.
  destruct (scrape_query s (head net) w) as [[[]|e] w1]; simpl; [apply IH|done].
Qed.

Lemma scrape_beatmapsets_blind : blind_io scrape_beatmapsets.
Proof.
  unfold scrape_beatmapsets.
  repeat (apply blind_io_bind; [apply blind_io_lift, logger_blind|]; intros _).
  apply blind_io_bind; [apply scrape_loop_blind|]. intros num.
  apply blind_io_lift, logger_blind.
Qed.

Lemma run_loop_blind (net : list response) (tries : nat) (l : Z) (w : world) :
  run_loop net tries (set_limit l w)
  = ((run_loop net tries w).1,
     ((run_loop net tries w).2.1, set_limit l (run_loop net tries w).2.2)).
Proof.
  revert tries w. induction net as [|r net IH]; intros tries w; simpl.
  - destruct (beatmapsets w); [done|].
    unfold bind. rewrite run_iteration_blind.
    by destruct (run_iteration tries None w) as [[t|e] w1].
  - destruct (beatmapsets w); [done|].
    rewrite run_iteration_blind.
    destruct (run_iteration tries (Some r) w) as [[t|e] w1]; simpl; [apply IH|done].
Qed.

Lemma run_blind : blind_io run.
Proof.
  unfold run.
  apply blind_io_bind; [apply blind_io_lift, logger_blind|]. intros _.
  apply blind_io_bind; [apply blind_io_lift; blind_tac|]. intros s.
  apply blind_io_bind; [apply blind_io_lift, log_each_blind|]. intros _.
  apply blind_io_bind; [|intros _; apply blind_io_lift, logger_blind].
  intros l stdin net w. rewrite run_loop_blind.
  by destruct (run_loop net 0 w) as [o [net' w']].
Qed.

(** [__init__] after its three assignments. *)
Definition Downloader_init_body : IO unit :=
  loaded <- load_credentials ∅;;
  lift (modify (set_credentials loaded));;
  login;;
  scrape_beatmapsets;;
  lift remove_existing_beatmapsets.

Lemma Downloader_init_body_blind : blind_io Downloader_init_body.
Proof.
  unfold Downloader_init_body.
  apply blind_io_bind; [apply load_credentials_blind|]. intros loaded.
  apply blind_io_bind; [apply blind_io_lift; blind_tac|]. intros _.
  apply blind_io_bind; [apply login_blind|]. intros _.
  apply blind_io_bind; [apply scrape_beatmapsets_blind|]. intros _.
  apply blind_io_lift, remove_existing_beatmapsets_blind.
Qed.

Lemma Downloader_init_limit (l : Z) (nv : bool) (stdin : list string)
    (net : list response) (w : world) :
  (Downloader_init l nv;; run) (stdin, net, w)
  = (Downloader_init_body;; run)
      (stdin, net, set_limit l (set_no_video nv (set_beatmapsets [] w))).
Proof. reflexivity. Qed.

(** C9. The limit given to the constructor has no effect: two runs that
    differ only in it end with the same outcome and exit status, consume
    the same console lines and responses, emit the same effects (requests,
    log entries, prompts, sleeps) in the same order and leave the same
    files; the process states differ in the stored limit alone. *)
Theorem limit_has_no_effect (limit1 limit2 : Z) (nv : bool)
    (stdin : list string) (net : list response) (w : world) :
  let r1 := (Downloader_init limit1 nv;; run) (stdin, net, w) in
  let r2 := (Downloader_init limit2 nv;; run) (stdin, net, w) in
  r1.1 = r2.1 ∧
  exit_status r1.1 = exit_status r2.1 ∧
  r1.2.1 = r2.2.1 ∧
  trace r1.2.2 = trace r2.2.2 ∧
  fs r1.2.2 = fs r2.2.2 ∧
  creds_file r1.2.2 = creds_file r2.2.2 ∧
  r2.2.2 = set_limit limit2 r1.2.2.
Proof.
  intros r1 r2. subst r1 r2. rewrite !Downloader_init_limit.
  assert (Hb : blind_io (Downloader_init_body;; run)).
  { apply blind_io_bind; [apply Downloader_init_body_blind|].
    intros _. apply run_blind. }
  rewrite !Hb.
  destruct ((Downloader_init_body;; run)
              (stdin, net, set_no_video nv (set_beatmapsets [] w)))
    as [o [io' w']].
  simpl. by repeat split.
Qed.

(** ** Exit statuses *)

(** The exit after five failures in a row is [sys.exit()] without an
    argument: the process leaves with status 0. *)
Lemma ceiling_breach_exits_zero (fails rest : list response) (w : world) :
  beatmapsets w ≠ [] → distinct_objects (beatmapsets w) →
  length fails = 5%nat →
  Forall (λ r, status_code r ≠ codes_ok) fails →
  exit_status (run_loop (fails ++ rest) 0 w).1 = 0.
Proof.
  intros Hne Hnd Hlen Hfail.
  assert (Hnil : fails ≠ []) by (by intros ->).
  by destruct (run_loop_failures fails rest 0 w ltac:(by rewrite Hlen)
                 Hnil Hfail Hne Hnd) as (w' & -> & _).
Qed.

(** A run whose loop drains the working set returns, and the process
    leaves with status 0. *)
Lemma drained_exits_zero (stdin : list string) (net net' : list response)
    (w w' : world) :
  run_loop net 0 (announced w) = (Ok tt, (net', w')) →
  exit_status (run (stdin, net, w)).1 = 0.
Proof. intros H. rewrite run_enters_loop, H. reflexivity. Qed.

(** * Further properties of the program *)

(** ** Searching in strings *)

Lemma append_nil_l (b : string) : "" +:+ b = b.
Proof. reflexivity. Qed.

Lemma append_cons (x : ascii) (a b : string) :
  String x a +:+ b = String x (a +:+ b).
Proof. reflexivity. Qed.

Lemma append_assoc (a b c : string) : (a +:+ b) +:+ c = a +:+ b +:+ c.
Proof.
  induction a as [|x a IH]; [done|]. by rewrite !append_cons, IH.
Qed.

Lemma append_length (a b : string) :
  String.length (a +:+ b) = (String.length a + String.length b)%nat.
Proof.
  induction a as [|x a IH]; [done|]. rewrite append_cons. simpl. by rewrite IH.
Qed.

Lemma strip_prefix_Some (p s r : string) :
  strip_prefix p s = Some r ↔ s = p +:+ r.
Proof.
  revert s. induction p as [|a p IH]; intros s; simpl.
  - rewrite append_nil_l. split; [by intros [= ->] | by intros ->].
  - rewrite append_cons. destruct s as [|b s]; [done|].
    destruct (Ascii.eqb_spec a b) as [->|Hne].
    + rewrite IH. split; [by intros -> | by intros [= ->]].
    + split; [done | by intros [= -> _]].
Qed.

(** Two ways of cutting the same string: the shorter head is a prefix of
    the longer one. *)
Lemma append_overlap (a x b y : string) :
  a +:+ x = b +:+ y → (String.length a ≤ String.length b)%nat →
  ∃ d, b = a +:+ d ∧ x = d +:+ y.
Proof.
  revert b. induction a as [|c a IH]; intros b.
  - rewrite append_nil_l. intros -> _. by exists b.
  - destruct b as [|c' b]; simpl; [lia|].
    rewrite !append_cons. intros [= -> E] Hlen.
    destruct (IH b E ltac:(lia)) as (d & -> & ->). by exists d.
Qed.

Lemma find_after_Some (p s r : string) :
  find_after p s = Some r →
  ∃ pre, s = pre +:+ p +:+ r ∧
         ∀ x y, s = x +:+ p +:+ y → (String.length pre ≤ String.length x)%nat.
Proof.
  revert r. induction s as [|c s IH]; intros r.
  - simpl. destruct (strip_prefix p "") as [rest|] eqn:E; [|done].
    intros [= ->]. apply strip_prefix_Some in E. exists "".
    split; [done | simpl; lia].
  - cbn [find_after]. destruct (strip_prefix p (String c s)) as [rest|] eqn:E.
    + intros [= ->]. apply strip_prefix_Some in E. exists "".
      split; [done | simpl; lia].
    + intros H. destruct (IH r H) as (pre & -> & Hmin).
      exists (String c pre). split; [done|].
      intros [|c' x] y.
      * rewrite append_nil_l. intros E'. apply strip_prefix_Some in E'. congruence.
      * rewrite append_cons. intros [= <- E']. specialize (Hmin x y E').
        simpl. lia.
Qed.

Lemma find_after_occurs (p x y : string) :
  ∃ r z, find_after p (x +:+ p +:+ y) = Some r ∧ r = z +:+ y.
Proof.
  assert (Hsome : ∀ s x y, s = x +:+ p +:+ y → is_Some (find_after p s)).
  { intros s. induction s as [|c s IH]; intros x' y' E.
    - simpl. destruct (strip_prefix p "") eqn:E'; [done|].
      destruct x'; [|done]. rewrite append_nil_l in E.
      by rewrite (proj2 (strip_prefix_Some p "" y') E) in E'.
    - cbn [find_after]. destruct (strip_prefix p (String c s)) eqn:E'; [done|].
      destruct x' as [|c' x'].
      + rewrite append_nil_l in E.
        by rewrite (proj2 (strip_prefix_Some p _ y') E) in E'.
      + rewrite append_cons in E. injection E as _ E. by eapply IH. }
  destruct (Hsome _ x y eq_refl) as [r Hr]. exists r.
  destruct (find_after_Some _ _ _ Hr) as (pre & E & Hmin).
  specialize (Hmin x y eq_refl).
  destruct (append_overlap pre (p +:+ r) x (p +:+ y) (eq_sym E) Hmin)
    as (d & _ & E1).
  rewrite <- append_assoc in E1.
  destruct (append_overlap p r (d +:+ p) y E1) as (z & _ & ->).
  { rewrite append_length. lia. }
  by exists z.
Qed.

Lemma find_before_Some (p s pre : string) :
  find_before p s = Some pre →
  ∃ r, s = pre +:+ p +:+ r ∧
       ∀ x y, s = x +:+ p +:+ y → (String.length pre ≤ String.length x)%nat.
Proof.
  revert pre. induction s as [|c s IH]; intros pre.
  - simpl. destruct (strip_prefix p "") as [rest|] eqn:E; [|done].
    intros [= <-]. apply strip_prefix_Some in E. exists rest.
    split; [done | simpl; lia].
  - cbn [find_before]. destruct (strip_prefix p (String c s)) as [rest|] eqn:E.
    + intros [= <-]. apply strip_prefix_Some in E. exists rest.
      split; [done | simpl; lia].
    + destruct (find_before p s) as [pre'|]; [|done]. simpl.
      intros [= <-]. destruct (IH pre' eq_refl) as (r & -> & Hmin).
      exists r. split; [done|].
      intros [|c' x] y.
      * rewrite append_nil_l. intros E'. apply strip_prefix_Some in E'. congruence.
      * rewrite append_cons. intros [= <- E']. specialize (Hmin x y E').
        simpl. lia.
Qed.

Lemma find_before_occurs (p x y : string) :
  is_Some (find_before p (x +:+ p +:+ y)).
Proof.
  assert (Hsome : ∀ s x y, s = x +:+ p +:+ y → is_Some (find_before p s)).
  { intros s. induction s as [|c s IH]; intros x' y' E.
    - simpl. destruct (strip_prefix p "") eqn:E'; [done|].
      destruct x'; [|done]. rewrite append_nil_l in E.
      by rewrite (proj2 (strip_prefix_Some p "" y') E) in E'.
    - cbn [find_before]. destruct (strip_prefix p (String c s)) eqn:E'; [done|].
      destruct x' as [|c' x'].
      + rewrite append_nil_l in E.
        by rewrite (proj2 (strip_prefix_Some p _ y') E) in E'.
      + rewrite append_cons in E. injection E as _ E.
        destruct (IH _ _ E) as [pre ->]. done. }
  by eapply Hsome.
Qed.

(** ** The token on the homepage *)

Definition content_attr : string := "content=" +:+ String dquote "".
Definition attr_end : string := String dquote ">".

(** X1. The pattern of [get_token] finds a token exactly on the pages
    that contain [csrf-token], later [content=] with an opening double
    quote, and later a double quote with a closing angle bracket; the token
    is then delimited in that way in the page, and it ends at the first
    such closing after the attribute was opened. *)
Theorem csrf_regex_match_delimits (page : string) :
  (is_Some (csrf_regex_match page) ↔
   ∃ a b t c, page = a +:+ "csrf-token" +:+ b +:+ content_attr +:+ t
                       +:+ attr_end +:+ c) ∧
  (∀ tok, csrf_regex_match page = Some tok →
     ∃ a b c, page = a +:+ "csrf-token" +:+ b +:+ content_attr +:+ tok
                       +:+ attr_end +:+ c ∧
              ∀ x y, tok +:+ attr_end +:+ c = x +:+ attr_end +:+ y →
                     (String.length tok ≤ String.length x)%nat).
Proof.
  assert (Hsound : ∀ tok, csrf_regex_match page = Some tok →
     ∃ a b c, page = a +:+ "csrf-token" +:+ b +:+ content_attr +:+ tok
                       +:+ attr_end +:+ c ∧
              ∀ x y, tok +:+ attr_end +:+ c = x +:+ attr_end +:+ y →
                     (String.length tok ≤ String.length x)%nat).
  { intros tok. unfold csrf_regex_match. fold content_attr attr_end.
    destruct (find_after "csrf-token" page) as [r1|] eqn:E1; [|done]. simpl.
    destruct (find_after content_attr r1) as [r2|] eqn:E2; [|done]. simpl.
    intros E3.
    destruct (find_after_Some _ _ _ E1) as (a & -> & _).
    destruct (find_after_Some _ _ _ E2) as (b & -> & _).
    destruct (find_before_Some _ _ _ E3) as (c & -> & Hmin).
    by exists a, b, c. }
  split; [|exact Hsound]. split.
  - intros [tok Htok]. destruct (Hsound tok Htok) as (a & b & c & E & _).
    by exists a, b, tok, c.
  - intros (a & b & t & c & ->). unfold csrf_regex_match.
    fold content_attr attr_end.
    destruct (find_after_occurs "csrf-token" a
                (b +:+ content_attr +:+ t +:+ attr_end +:+ c))
      as (r1 & z1 & -> & ->). simpl.
    rewrite <- (append_assoc z1 b).
    destruct (find_after_occurs content_attr (z1 +:+ b) (t +:+ attr_end +:+ c))
      as (r2 & z2 & -> & ->). simpl.
    rewrite <- (append_assoc z2 t).
    apply find_before_occurs.
Qed.

(** ** Logging in *)

Definition homepage_request : request :=
  {| meth := GET; url := OSU_URL; params := []; data := ∅; headers := [];
     stream := false |}.

(** X2. On a homepage without a token the login stops with
    [AttributeError] after the one request for the homepage: the
    credentials are not posted, nothing is asked on the console, and the
    credentials and their file are as before.  The process would leave with
    status 1. *)
Theorem login_without_token
    (stdin : list string) (home : response) (net : list response) (w : world) :
  csrf_regex_match (text home) = None →
  login (stdin, home :: net, w)
  = (Raise AttributeError,
     (stdin, net,
      set_trace (Http homepage_request
                 :: Log INFO (center " DOWNLOADER STARTED " 50 "#")
                 :: Log INFO " made by hyeok2044 " :: trace w) w)) ∧
  exit_status (login (stdin, home :: net, w)).1 = 1.
Proof.
  intros Hno.
  assert (E : login (stdin, home :: net, w)
              = (Raise AttributeError,
                 (stdin, net,
                  set_trace (Http homepage_request
                             :: Log INFO (center " DOWNLOADER STARTED " 50 "#")
                             :: Log INFO " made by hyeok2044 " :: trace w) w))).
  { unfold login, get_token, session_request, session_reply, lift, bind.
    mred. by rewrite Hno. }
  by rewrite E.
Qed.

(** X3. When the login response is not 200 the process asks whether to
    delete the stored credentials and exits with status 1 either way; the
    credentials file is gone afterwards exactly when the answer was [y] or
    [Y], and the other files and the working set are untouched. *)
Theorem login_failure_deletes_on_yes
    (answer : string) (stdin : list string) (home r : response)
    (net : list response) (w : world) (tok : string) :
  csrf_regex_match (text home) = Some tok →
  status_code r ≠ codes_ok →
  (lower_is_y answer = true ↔ answer = "y" ∨ answer = "Y") ∧
  ∃ w', login (answer :: stdin, home :: r :: net, w)
        = (Raise (SystemExit (Some 1)), (stdin, net, w')) ∧
        creds_file w' = (if lower_is_y answer then None else creds_file w) ∧
        fs w' = fs w ∧ beatmapsets w' = beatmapsets w.
Proof.
  intros Htok Hst. split.
  - unfold lower_is_y. rewrite orb_true_iff, !bool_decide_eq_true. done.
  - unfold login, get_token, session_request, session_reply, lift, bind.
    mred. rewrite Htok. simpl. rewrite bool_decide_eq_true_2 by done. simpl.
    destruct (lower_is_y answer); simpl; [|eauto 6].
    unfold delete_credentials. mred.
    destruct (creds_file w) eqn:E; simpl; eauto 6.
Qed.

(** ** Credentials at start-up *)

(** What [main] does once the credentials are in place. *)
Definition after_credentials : IO unit :=
  (login;; scrape_beatmapsets;; lift remove_existing_beatmapsets);; run.

Definition entered (username password : string) : gmap string string :=
  <["password" := password]> (<["username" := username]> ∅).

(** X4. Without a credentials file [main] asks for the credentials, and
    when the user declines to save them the constructor of [Downloader]
    asks again: six lines are read, the first user name and password are
    discarded, and the login runs with the second pair, which is saved
    exactly when the second answer is [y] or [Y]. *)
Theorem unsaved_credentials_are_asked_twice
    (u1 p1 a1 u2 p2 a2 : string) (stdin : list string)
    (net : list response) (w : world) :
  creds_file w = None →
  lower_is_y a1 = false →
  ∃ w1, main (u1 :: p1 :: a1 :: u2 :: p2 :: a2 :: stdin, net, w)
        = after_credentials (stdin, net, w1) ∧
        credentials w1 = entered u2 p2 ∧
        creds_file w1
        = (if lower_is_y a2 then Some (Some (entered u2 p2)) else None) ∧
        beatmapsets w1 = [] ∧ limit w1 = 10 ∧ no_video w1 = true.
Proof.
  intros Hfile Hno.
  unfold main, Downloader_init, load_credentials, ask_credentials, input,
    save_credentials, lift, bind.
  mred.
  destruct (negb (bool_decide (is_Some (fs w !! DOWNLOAD_PATH)))); simpl;
    rewrite Hfile; simpl; rewrite Hno; simpl; rewrite Hfile; simpl;
    destruct (lower_is_y a2); simpl; eexists; (split; [reflexivity|]); done.
Qed.

(** X5. Without a credentials file, credentials that the user lets [main]
    save are read back by the constructor of [Downloader]: three lines are
    read, the file holds the pair that was entered, and the login runs with
    that pair. *)
Theorem saved_credentials_are_reused
    (u p a : string) (stdin : list string) (net : list response) (w : world) :
  creds_file w = None →
  lower_is_y a = true →
  ∃ w1, main (u :: p :: a :: stdin, net, w)
        = after_credentials (stdin, net, w1) ∧
        credentials w1 = entered u p ∧
        creds_file w1 = Some (Some (entered u p)) ∧
        beatmapsets w1 = [] ∧ limit w1 = 10 ∧ no_video w1 = true.
Proof.
  intros Hfile Hyes.
  unfold main, Downloader_init, load_credentials, ask_credentials, input,
    save_credentials, lift, bind.
  mred.
  destruct (negb (bool_decide (is_Some (fs w !! DOWNLOAD_PATH)))); simpl;
    rewrite Hfile; simpl; rewrite Hyes; simpl;
    eexists; (split; [reflexivity|]); done.
Qed.

(** X6. A credentials file that holds a dictionary without the key
    [username], or that is not JSON, stops [main] with an exception
    ([KeyError], [JSONDecodeError]) before anything is read from the
    console or requested from the server; the download directory has been
    created by then if it was missing. *)
Theorem unusable_credentials_file
    (stdin : list string) (net : list response) (w : world) :
  (creds_file w = Some None ∨
   ∃ loaded, creds_file w = Some (Some loaded) ∧ loaded !! "username" = None) →
  ∃ e w', main (stdin, net, w) = (Raise e, (stdin, net, w')) ∧
          (e = KeyError ∨ e = JSONDecodeError) ∧
          trace w' = trace w ∧
          is_Some (fs w' !! DOWNLOAD_PATH) ∧
          (fs w !! DOWNLOAD_PATH = None → fs w' !! DOWNLOAD_PATH = Some Dir).
Proof.
  intros Hbad. unfold main, lift, bind. mred.
  destruct (bool_decide (is_Some (fs w !! DOWNLOAD_PATH))) eqn:Hd; simpl.
  - apply bool_decide_eq_true in Hd.
    destruct Hbad as [-> | (loaded & -> & ->)]; simpl;
      eexists _, _; (split; [reflexivity|]); simpl;
      (split; [eauto|]); (split; [done|]); (split; [done|]);
      intros E; rewrite E in Hd; by destruct Hd.
  - destruct Hbad as [-> | (loaded & -> & ->)]; simpl;
      eexists _, _; (split; [reflexivity|]); simpl;
      rewrite lookup_insert_eq; eauto.
Qed.

(** ** What a computation keeps

    [keeps R c]: whatever [c] returns or raises, the process state it
    leaves is related by [R] to the one it started from. *)
Definition keeps (R : relation world) {A} (c : M A) : Prop :=
  ∀ w, R w (c w).2.

Definition keeps_io (R : relation world) {A} (c : IO A) : Prop :=
  ∀ stdin net w, R w (c (stdin, net, w)).2.2.

Section Keeps.

Context (R : relation world) `{!PreOrder R}.

Lemma keeps_ret {A} (a : A) : keeps R (ret a).
Proof. intros w. reflexivity. Qed.

Lemma keeps_raise {A} (e : exn) : keeps R (raise (A := A) e).
Proof. intros w. reflexivity. Qed.

Lemma keeps_gets {A} (f : world → A) : keeps R (gets f).
Proof. intros w. reflexivity. Qed.

Lemma keeps_modify (f : world → world) : (∀ w, R w (f w)) → keeps R (modify f).
Proof. intros Hf w. apply Hf. Qed.

Lemma keeps_bind {A B} (c : M A) (k : A → M B) :
  keeps R c → (∀ a, keeps R (k a)) → keeps R (bind c k).
Proof.
  intros Hc Hk w. unfold bind. specialize (Hc w).
  destruct (c w) as [[a|e] w1]; simpl in *; [|done].
  etrans; [exact Hc | apply Hk].
Qed.

Lemma keeps_io_ret {A} (a : A) : keeps_io R (ret a).
Proof. intros stdin net w. reflexivity. Qed.

Lemma keeps_io_raise {A} (e : exn) : keeps_io R (raise (A := A) e).
Proof. intros stdin net w. reflexivity. Qed.

Lemma keeps_io_lift {A} (c : M A) : keeps R c → keeps_io R (lift c).
Proof.
  intros Hc stdin net w. unfold lift. specialize (Hc w).
  by destruct (c w) as [o w1].
Qed.

Lemma keeps_io_bind {A B} (c : IO A) (k : A → IO B) :
  keeps_io R c → (∀ a, keeps_io R (k a)) → keeps_io R (bind c k).
Proof.
  intros Hc Hk stdin net w. unfold bind. specialize (Hc stdin net w).
  destruct (c (stdin, net, w)) as [[a|e] [[stdin' net'] w1]]; simpl in *;
    [|done].
  etrans; [exact Hc | apply Hk].
Qed.

End Keeps.

Ltac keeps_step :=
  first
    [ apply keeps_ret; apply _
    | apply keeps_raise; apply _
    | apply keeps_gets; apply _
    | apply keeps_bind; [apply _| |intros ?]
    | match goal with
      | |- keeps _ (if ?b then _ else _) => destruct b
      | |- keeps _ (match ?x with _ => _ end) => destruct x
      end
    | assumption ].

(** *** The collector only adds records *)

Definition grows (w w' : world) : Prop :=
  beatmapsets w `prefix_of` beatmapsets w'.

Local Instance grows_preorder : PreOrder grows.
Proof.
  split.
  - intros w. unfold grows. reflexivity.
  - intros w1 w2 w3. unfold grows. apply transitivity.
Qed.

Lemma set_add_prefix (x : BeatmapSet) (s : list BeatmapSet) :
  s `prefix_of` set_add x s.
Proof.
  unfold set_add. destruct (existsb _ _); [done|]. by apply prefix_app_r.
Qed.

Lemma emit_grows (e : event) : keeps grows (emit e).
Proof. apply keeps_modify. intros w. unfold grows. done. Qed.

Lemma session_reply_grows (req : request) (reply : option response) :
  keeps grows (session_reply req reply).
Proof.
  unfold session_reply. apply keeps_bind; [apply _ | apply emit_grows |].
  intros _. destruct reply; keeps_step.
Qed.

Lemma insert_grows (bmset : bmset_data) :
  keeps grows (b <- BeatmapSet_init bmset;; beatmapsets_add b).
Proof.
  intros w. unfold BeatmapSet_init, beatmapsets_add, grows. mred.
  apply set_add_prefix.
Qed.

Lemma scan_beatmaps_grows (s : string) (beatmaps : list Z) :
  keeps grows (scan_beatmaps s beatmaps).
Proof. intros w. by rewrite scan_beatmaps_pure. Qed.

Lemma scan_beatmapsets_grows (s : string) (sets : list bmset_data) (chk : bool) :
  keeps grows (scan_beatmapsets s sets chk).
Proof.
  revert chk. induction sets as [|bmset sets IH]; intros chk; simpl.
  - apply keeps_ret; apply _.
  - destruct chk; simpl; [apply IH|].
    apply keeps_bind; [apply _ | apply scan_beatmaps_grows |].
    intros [|]; [|apply IH].
    pose proof (insert_grows bmset) as Hins.
    intros w. specialize (Hins w). unfold bind in *.
    destruct (BeatmapSet_init bmset w) as [[b|e] w1]; simpl in *; [|done].
    etrans; [exact Hins | apply IH].
Qed.

Lemma beatmapsets_update_grows (sets : list bmset_data) :
  keeps grows (beatmapsets_update sets).
Proof.
  induction sets as [|bmset sets IH]; simpl; [apply keeps_ret; apply _|].
  pose proof (insert_grows bmset) as Hins.
  intros w. specialize (Hins w). unfold bind in *.
  destruct (BeatmapSet_init bmset w) as [[b|e] w1]; simpl in *; [|done].
  etrans; [exact Hins | apply IH].
Qed.

Lemma scrape_query_grows (s : string) (reply : option response) :
  keeps grows (scrape_query s reply).
Proof.
  unfold scrape_query.
  apply keeps_bind; [apply _ | apply session_reply_grows |]. intros r.
  destruct (json r) as [sets|]; [|apply keeps_raise; apply _].
  destruct (str_isnumeric s); [|apply beatmapsets_update_grows].
  apply keeps_bind; [apply _ | apply scan_beatmapsets_grows |].
  intros [|]; simpl; [apply keeps_ret; apply _ | apply emit_grows].
Qed.

Lemma scrape_loop_grows
    (num_beatmapsets : nat) (stdin : list string) (net : list response)
    (w : world) :
  beatmapsets w
    `prefix_of` beatmapsets (scrape_loop num_beatmapsets stdin net w).2.2.
Proof.
  revert num_beatmapsets net w.
  induction stdin as [|s stdin IH]; intros num net w; simpl; [done|].
  destruct (bool_decide (s = "-1")); [done|].
  destruct (bool_decide (s = "")); [apply IH|].
  pose proof (scrape_query_grows s (head net) w) as Hq. unfold grows in Hq.
  destruct (scrape_query s (head net) w) as [[[]|e] w1]; simpl in *; [|done].
  etrans; [exact Hq | apply IH].
Qed.

(** X7. The collection never removes a record: whatever lines and
    responses arrive and however the collection ends, every record that
    was in the working set is still in it. *)
Theorem collector_only_adds
    (num_beatmapsets : nat) (stdin : list string) (net : list response)
    (w : world) (b : BeatmapSet) :
  b ∈ beatmapsets w →
  b ∈ beatmapsets (scrape_loop num_beatmapsets stdin net w).2.2.
Proof.
  intros Hb.
  destruct (scrape_loop_grows num_beatmapsets stdin net w) as [added ->].
  apply elem_of_app. by left.
Qed.

(** *** Lines, requests and the reported count *)

Definition same_trace (w w' : world) : Prop := trace w' = trace w.

Local Instance same_trace_preorder : PreOrder same_trace.
Proof.
  split.
  - by intros w.
  - intros w1 w2 w3. unfold same_trace. congruence.
Qed.

Lemma insert_same_trace (bmset : bmset_data) :
  keeps same_trace (b <- BeatmapSet_init bmset;; beatmapsets_add b).
Proof. by intros w. Qed.

Lemma scan_beatmapsets_same_trace (s : string) (sets : list bmset_data) (chk : bool) :
  keeps same_trace (scan_beatmapsets s sets chk).
Proof.
  revert chk. induction sets as [|bmset sets IH]; intros chk; simpl.
  - apply keeps_ret; apply _.
  - destruct chk; simpl; [apply IH|].
    apply keeps_bind; [apply _ | intros w; by rewrite scan_beatmaps_pure |].
    intros [|]; [|apply IH].
    intros w. unfold bind, BeatmapSet_init. mred.
    etrans; [|apply IH]. done.
Qed.

Lemma beatmapsets_update_same_trace (sets : list bmset_data) :
  keeps same_trace (beatmapsets_update sets).
Proof.
  induction sets as [|bmset sets IH]; simpl; [apply keeps_ret; apply _|].
  intros w. unfold bind, BeatmapSet_init. mred.
  etrans; [|apply IH]. done.
Qed.

Lemma scrape_query_Ok (s : string) (reply : option response) (w w1 : world) (u : unit) :
  scrape_query s reply w = (Ok u, w1) →
  ∃ r, reply = Some r ∧ requests (trace w1) = S (requests (trace w)).
Proof.
  unfold scrape_query, session_reply. mred.
  destruct reply as [r|]; simpl; [|done].
  destruct (json r) as [sets|]; simpl; [|done].
  set (w0 := set_trace (Http (search_request s) :: trace w) w).
  destruct (str_isnumeric s).
  - pose proof (scan_beatmapsets_same_trace s sets false w0) as Ht.
    destruct (scan_beatmapsets s sets false w0) as [[chk|e] w2]; simpl in *;
      [|done].
    unfold same_trace in Ht.
    destruct chk; simpl; intros [= ?]; subst w1; exists r; (split; [done|]).
    + by rewrite Ht.
    + unfold requests. simpl. by rewrite Ht.
  - pose proof (beatmapsets_update_same_trace sets w0) as Ht.
    destruct (beatmapsets_update sets w0) as [[[]|e] w2]; simpl in *; [|done].
    intros [= ?]; subst w1. exists r. split; [done|]. by rewrite Ht.
Qed.

Definition is_query (s : string) : bool := negb (bool_decide (s = "")).

(** How a collection that returns went: the lines up to the sentinel, one
    response for each of them that is not blank, and the count it
    reports. *)
Lemma scrape_loop_Ok (num_beatmapsets n : nat) (stdin stdin' : list string)
    (net net' : list response) (w w' : world) :
  scrape_loop num_beatmapsets stdin net w = (Ok n, (stdin', net', w')) →
  ∃ lines answered,
    stdin = lines ++ ("-1" :: stdin') ∧ ("-1" ∉ lines) ∧
    net = answered ++ net' ∧
    length answered = length (List.filter is_query lines) ∧
    requests (trace w') = (requests (trace w) + length answered)%nat ∧
    (num_beatmapsets = length (beatmapsets w) → n = length (beatmapsets w')).
Proof.
  revert num_beatmapsets net w.
  induction stdin as [|s stdin IH]; intros num net w; simpl; [done|].
  destruct (bool_decide (s = "-1")) eqn:Hs.
  { intros [= <- <- <- <-]. exists [], []. apply bool_decide_eq_true in Hs as ->.
    repeat split; try done. apply not_elem_of_nil. }
  apply bool_decide_eq_false in Hs.
  destruct (bool_decide (s = "")) eqn:Hb.
  { intros H. destruct (IH _ _ _ H) as (lines & answered & -> & Hno & -> & Hl & Hr & Hn).
    apply bool_decide_eq_true in Hb as ->.
    exists ("" :: lines), answered. repeat split; try done.
    apply not_elem_of_cons. by split. }
  destruct (scrape_query s (head net) w) as [[[]|e] w1] eqn:Hq; [|done].
  destruct (scrape_query_Ok _ _ _ _ _ Hq) as (r & Hhd & Hreq).
  destruct net as [|r' net]; [done|]. simpl in Hhd. injection Hhd as ->.
  simpl. intros H.
  destruct (IH _ _ _ H) as (lines & answered & -> & Hno & -> & Hl & Hr & Hn).
  exists (s :: lines), (r :: answered). simpl.
  unfold is_query at 1. rewrite Hb. simpl.
  repeat split; try done.
  - apply not_elem_of_cons. split; [congruence|done].
  - by rewrite Hl.
  - lia.
  - intros _. by apply Hn.
Qed.

(** X8. The collection returns only at the sentinel: if it returns, the
    console input was some lines without [-1], then [-1], then exactly the
    lines that are left unread; so on an input without the sentinel it
    never returns but ends in an exception. *)
Theorem collector_returns_at_sentinel
    (num_beatmapsets : nat) (stdin : list string) (net : list response)
    (w : world) :
  (∀ n stdin' net' w',
     scrape_loop num_beatmapsets stdin net w = (Ok n, (stdin', net', w')) →
     ∃ lines, stdin = lines ++ ("-1" :: stdin') ∧ ("-1" ∉ lines)) ∧
  ("-1" ∉ stdin →
   ∃ e, (scrape_loop num_beatmapsets stdin net w).1 = Raise e).
Proof.
  split.
  - intros n stdin' net' w' H.
    destruct (scrape_loop_Ok _ _ _ _ _ _ _ _ H) as (lines & _ & ? & ? & _).
    by exists lines.
  - intros Hno.
    destruct (scrape_loop num_beatmapsets stdin net w)
      as [[n|e] [[stdin' net'] w']] eqn:H; [|by exists e].
    destruct (scrape_loop_Ok _ _ _ _ _ _ _ _ H) as (lines & _ & -> & _).
    exfalso. apply Hno. apply elem_of_app. right. by left.
Qed.

(** X9. A collection that returns has made one search request for every
    line before the sentinel that is not blank, and no other request, and
    has consumed one response for each: blank lines cost nothing. *)
Theorem collector_one_request_per_query
    (num_beatmapsets n : nat) (stdin stdin' : list string)
    (net net' : list response) (w w' : world) :
  scrape_loop num_beatmapsets stdin net w = (Ok n, (stdin', net', w')) →
  ∃ lines answered,
    stdin = lines ++ ("-1" :: stdin') ∧
    net = answered ++ net' ∧
    length answered = length (List.filter (λ s, negb (bool_decide (s = ""))) lines) ∧
    requests (trace w') = (requests (trace w) + length answered)%nat.
Proof.
  intros H.
  destruct (scrape_loop_Ok _ _ _ _ _ _ _ _ H)
    as (lines & answered & ? & _ & ? & ? & ? & _).
  by exists lines, answered.
Qed.

(** X10. The number that the collection reports as scraped is the size of
    the working set at the sentinel, given that the count it starts from
    is the size of the working set at the start (0 and the empty set in
    [scrape_beatmapsets]). *)
Theorem collector_reports_set_size
    (n : nat) (stdin stdin' : list string) (net net' : list response)
    (w w' : world) :
  scrape_loop (length (beatmapsets w)) stdin net w = (Ok n, (stdin', net', w')) →
  n = length (beatmapsets w').
Proof.
  intros H.
  destruct (scrape_loop_Ok _ _ _ _ _ _ _ _ H) as (_ & _ & _ & _ & _ & _ & _ & Hn).
  by apply Hn.
Qed.

(** *** Numeric queries *)

Lemma scan_beatmaps_hit (s : string) (n : Z) (beatmaps : list Z) (w : world) :
  int_of_str s = Some n → n ∈ beatmaps →
  scan_beatmaps s beatmaps w = (Ok true, w).
Proof.
  intros Hn. induction beatmaps as [|m beatmaps IH]; intros Hin; simpl.
  - by apply elem_of_nil in Hin.
  - rewrite Hn. destruct (Z.eqb_spec m n) as [->|Hne]; [done|].
    apply IH. apply elem_of_cons in Hin as [->|Hin]; done.
Qed.

Lemma scan_beatmapsets_found (s : string) (sets : list bmset_data) (w : world) :
  scan_beatmapsets s sets true w = (Ok true, w).
Proof. induction sets as [|bmset sets IH]; simpl; done. Qed.

(** X11. A numeric query whose integer is the id of a beatmap in some
    returned set adds one record and no more: the record of the first
    returned set that holds such a beatmap, constructed as a new object;
    the working set is then that record together with the records it held,
    the sets after the first match are not scanned and nothing is
    logged. *)
Theorem numeric_query_hit
    (s : string) (n : Z) (r : response)
    (before after : list bmset_data) (bmset : bmset_data) (w : world) :
  str_isnumeric s = true →
  int_of_str s = Some n →
  json r = Some (before ++ bmset :: after) →
  Forall (λ b, n ∉ data_beatmaps b) before →
  n ∈ data_beatmaps bmset →
  allocated w →
  ∃ w', scrape_query s (Some r) w = (Ok tt, w') ∧
        beatmapsets w' ≡ₚ constructed (next_oid w) bmset :: beatmapsets w ∧
        trace w' = Http (search_request s) :: trace w ∧
        fs w' = fs w.
Proof.
  intros Hnum Hn Hjson Hbefore Hin Hw.
  unfold scrape_query, session_reply. mred. rewrite Hjson, Hnum.
  set (w0 := set_trace (Http (search_request s) :: trace w) w).
  assert (Hscan : ∃ w',
            scan_beatmapsets s (before ++ bmset :: after) false w0 = (Ok true, w') ∧
            beatmapsets w' = beatmapsets w ++ [constructed (next_oid w) bmset] ∧
            trace w' = Http (search_request s) :: trace w ∧ fs w' = fs w).
  { clear Hjson. induction Hbefore as [|b before Hb _ IH]; simpl.
    - unfold bind at 1. rewrite (scan_beatmaps_hit s n _ w0 Hn Hin).
      destruct (insert_constructed bmset w0 Hw) as (w1 & H1 & Hb1 & _ & Hc1).
      pose proof (insert_same_trace bmset w0) as Ht. unfold same_trace in Ht.
      unfold bind in H1, Ht. unfold bind at 1.
      destruct (BeatmapSet_init bmset w0) as [[x|e] w2]; [|done].
      unfold bind at 1. rewrite H1. rewrite H1 in Ht. simpl in Ht.
      rewrite scan_beatmapsets_found. exists w1.
      split; [done|]. split; [done|]. split; [done|]. apply Hc1.
    - unfold bind at 1. rewrite (scan_beatmaps_miss s n _ w0 Hn Hb).
      simpl. exact IH. }
  destruct Hscan as (w' & -> & Hb & ? & ?). simpl. exists w'.
  split; [done|]. split; [|done].
  rewrite Hb. symmetry. apply Permutation_cons_append.
Qed.

Lemma scan_beatmapsets_not_int (s : string) (sets : list bmset_data) (w : world) :
  int_of_str s = None →
  Exists (λ b, data_beatmaps b ≠ []) sets →
  scan_beatmapsets s sets false w = (Raise ValueError, w).
Proof.
  intros Hn. induction sets as [|bmset sets IH]; intros Hex; simpl.
  - by apply Exists_nil in Hex.
  - unfold bind at 1. destruct (data_beatmaps bmset) as [|m beatmaps] eqn:E; simpl.
    + apply IH. apply Exists_cons in Hex as [Hex|Hex]; [by rewrite E in Hex | done].
    + by rewrite Hn.
Qed.

Lemma scan_beatmapsets_no_beatmaps (s : string) (sets : list bmset_data) (w : world) :
  Forall (λ b, data_beatmaps b = []) sets →
  scan_beatmapsets s sets false w = (Ok false, w).
Proof.
  induction 1 as [|bmset sets Hb _ IH]; simpl; [done|].
  unfold bind at 1. by rewrite Hb.
Qed.

(** X12. A query that [isnumeric] accepts but [int] rejects (a superscript
    digit, a vulgar fraction) raises [ValueError] at the first beatmap it
    is compared with, after the search request and with the working set
    untouched; only when no returned set has any beatmap is [int] never
    called, and the query ends as not found. *)
Theorem numeric_query_not_an_integer
    (s : string) (r : response) (sets : list bmset_data) (w : world) :
  str_isnumeric s = true →
  int_of_str s = None →
  json r = Some sets →
  (Exists (λ b, data_beatmaps b ≠ []) sets →
   scrape_query s (Some r) w
   = (Raise ValueError, set_trace (Http (search_request s) :: trace w) w)) ∧
  (Forall (λ b, data_beatmaps b = []) sets →
   scrape_query s (Some r) w
   = (Ok tt, set_trace (not_found_log s :: Http (search_request s) :: trace w) w)).
Proof.
  intros Hnum Hn Hjson. split; intros Hsets.
  - unfold scrape_query, session_reply. mred. rewrite Hjson, Hnum.
    by rewrite scan_beatmapsets_not_int.
  - unfold scrape_query, session_reply. mred. rewrite Hjson, Hnum.
    by rewrite scan_beatmapsets_no_beatmaps.
Qed.

(** X13. A query whose search cannot be used ends the whole collection,
    not just the query: the exception is [JSONDecodeError] for a body that
    is not JSON, [KeyError] for a JSON object without the key
    [beatmapsets], [TypeError] for JSON that is not an object and
    [ConnectionError] for a failed connection; the later lines stay unread
    and the working set is untouched. *)
Theorem failed_search_ends_collection
    (s : string) (num_beatmapsets : nat) (stdin : list string) (w : world) :
  s ≠ "-1" → s ≠ "" →
  (∀ r net, json r = None →
     scrape_loop num_beatmapsets (s :: stdin) (r :: net) w
     = (Raise (match bad_json r with
               | NotJSON => JSONDecodeError
               | WithoutBeatmapsets => KeyError
               | NotAnObject => TypeError
               end),
        (stdin, net, set_trace (Http (search_request s) :: trace w) w))) ∧
  scrape_loop num_beatmapsets (s :: stdin) [] w
  = (Raise ConnectionError,
     (stdin, [], set_trace (Http (search_request s) :: trace w) w)).
Proof.
  intros Hs1 Hs2. split; [intros r net Hjson|]; simpl;
    rewrite !bool_decide_eq_false_2 by done;
    unfold scrape_query, session_reply; mred; by rewrite ?Hjson.
Qed.

(** ** More on the filter and on canonical names *)

Lemma filter_filter_negb {A} (f : A → bool) (l : list A) :
  List.filter f (List.filter (λ x, negb (f x)) l) = [] ∧
  List.filter (λ x, negb (f x)) (List.filter (λ x, negb (f x)) l)
  = List.filter (λ x, negb (f x)) l.
Proof.
  induction l as [|x l [IH1 IH2]]; simpl; [done|].
  destruct (f x) eqn:E; simpl; [done|]. rewrite E. simpl. by rewrite IH2.
Qed.

Lemma distinct_objects_filter (f : BeatmapSet → bool) (s : list BeatmapSet) :
  distinct_objects s → distinct_objects (List.filter f s).
Proof.
  unfold distinct_objects. induction s as [|b s IH]; simpl; [done|].
  rewrite NoDup_cons. intros [Hb Hs]. destruct (f b); [|by apply IH].
  rewrite fmap_cons. apply NoDup_cons. split; [|by apply IH].
  intros Hin. apply Hb. apply list_elem_of_fmap in Hin as (y & E & Hy).
  apply list_elem_of_fmap. exists y. split; [done|].
  apply list_elem_of_In in Hy. apply filter_In in Hy as [Hy _].
  by apply list_elem_of_In.
Qed.

(** X14. Filtering twice is filtering once: after
    [remove_existing_beatmapsets] a second call removes no record, logs
    nothing and leaves the process state exactly as the first call left
    it. *)
Theorem filter_is_idempotent (w : world) :
  distinct_objects (beatmapsets w) →
  ∃ w1, remove_existing_beatmapsets w = (Ok tt, w1) ∧
        remove_existing_beatmapsets w1 = (Ok tt, w1).
Proof.
  intros Hnd. unfold remove_existing_beatmapsets. mred.
  rewrite filter_existing_spec by done. simpl.
  eexists. split; [reflexivity|]. simpl.
  rewrite filter_existing_spec by (by apply distinct_objects_filter). simpl.
  destruct (filter_filter_negb (already_downloaded (fs w)) (beatmapsets w))
    as [-> ->].
  reflexivity.
Qed.

(** X15. The filter announces every record it removes and nothing else:
    its only effects are log entries, one for each record that has an
    artifact, in the order in which the set is iterated. *)
Theorem filter_logs_each_removed (w : world) :
  distinct_objects (beatmapsets w) →
  ∃ w1, remove_existing_beatmapsets w = (Ok tt, w1) ∧
        trace w1
        = rev ((λ b, Log INFO ("Beatmapset already downloaded: "
                               +:+ BeatmapSet_str b))
                 <$> List.filter (already_downloaded (fs w)) (beatmapsets w))
          ++ trace w ∧
        credentials w1 = credentials w ∧ next_oid w1 = next_oid w.
Proof.
  intros Hnd. unfold remove_existing_beatmapsets. mred.
  rewrite filter_existing_spec by done. simpl.
  eexists. split; [reflexivity|]. done.
Qed.

Lemma ILLEGAL_CHARS_sub_app (a b : string) :
  ILLEGAL_CHARS_sub (a +:+ b) = ILLEGAL_CHARS_sub a +:+ ILLEGAL_CHARS_sub b.
Proof.
  induction a as [|c a IH]; [done|].
  rewrite append_cons. simpl. by rewrite append_cons, IH.
Qed.

(** X16. Canonical names do not tell apart records that differ only in
    reserved characters: replacing those characters in the artist and the
    title of a record beforehand gives the same canonical name, whatever
    the object and its url, so the filter treats the two records alike. *)
Theorem canonical_name_collides (b : BeatmapSet) (o : nat) (u : string)
    (files : gmap string node) :
  let b' := {| oid := o; set_id := set_id b;
               title := ILLEGAL_CHARS_sub (title b);
               artist := ILLEGAL_CHARS_sub (artist b); bs_url := u |} in
  BeatmapSet_str b' = BeatmapSet_str b ∧
  already_downloaded files b' = already_downloaded files b.
Proof.
  intros b'.
  assert (E : BeatmapSet_str b' = BeatmapSet_str b).
  { unfold BeatmapSet_str, b'. simpl.
    by rewrite !ILLEGAL_CHARS_sub_app, !ILLEGAL_CHARS_sub_idempotent. }
  split; [exact E|]. unfold already_downloaded. by rewrite E.
Qed.

Lemma archive_path (b : BeatmapSet) :
  path_join DOWNLOAD_PATH (BeatmapSet_str b +:+ ".osz")
  = "./Downloads/" +:+ BeatmapSet_str b +:+ ".osz".
Proof.
  pose proof (canonical_name_relative b) as Hrel. unfold path_join.
  destruct (BeatmapSet_str b) as [|c name]; [reflexivity|].
  rewrite append_cons. cbn [strip_prefix] in *.
  destruct (Ascii.eqb "/" c); [done|]. reflexivity.
Qed.

(** X17. A canonical name holds none of the reserved characters, in
    particular no slash: joined to the download directory it names an
    entry directly inside that directory. *)
Theorem canonical_name_is_a_file_name (b : BeatmapSet) :
  (∀ c, c ∈ String.list_ascii_of_string (BeatmapSet_str b) → c ∉ reserved_chars) ∧
  path_join DOWNLOAD_PATH (BeatmapSet_str b) = "./Downloads/" +:+ BeatmapSet_str b ∧
  path_join DOWNLOAD_PATH (BeatmapSet_str b +:+ ".osz")
  = "./Downloads/" +:+ BeatmapSet_str b +:+ ".osz".
Proof.
  split; [|split].
  - intros c Hc Hres. apply ILLEGAL_CHARS_sub_clean in Hc.
    unfold ILLEGAL_CHARS in Hc. by apply bool_decide_eq_false in Hc.
  - apply download_path.
  - apply archive_path.
Qed.

(** ** Downloaded archives and the local files *)


(** Nothing is removed from the file system, and no entry changes its
    kind. *)
Definition fs_le (w w' : world) : Prop :=
  ∀ p, match fs w !! p with
       | Some Dir => fs w' !! p = Some Dir
       | Some (File _) => ∃ content, fs w' !! p = Some (File content)
       | None => True
       end.

Local Instance fs_le_preorder : PreOrder fs_le.
Proof.
  split.
  - intros w p. destruct (fs w !! p) as [[|c]|]; eauto.
  - intros w1 w2 w3 H12 H23 p. specialize (H12 p). specialize (H23 p).
    destruct (fs w1 !! p) as [[|c]|]; [| |done].
    + by rewrite H12 in H23.
    + destruct H12 as [c2 H12]. by rewrite H12 in H23.
Qed.

Lemma fs_le_same (w w' : world) : fs w' = fs w → fs_le w w'.
Proof. intros E p. rewrite E. destruct (fs w !! p) as [[|c]|]; eauto. Qed.

Lemma fs_le_insert_file (w w' : world) (p : string) (content : string) :
  isdir (fs w) p = false →
  fs w' = <[p := File content]> (fs w) → fs_le w w'.
Proof.
  intros Hdir E q. rewrite E. unfold isdir in Hdir.
  destruct (decide (p = q)) as [<-|Hne].
  - rewrite lookup_insert_eq. destruct (fs w !! p) as [[|c]|]; eauto; done.
  - rewrite lookup_insert_ne by done. destruct (fs w !! q) as [[|c]|]; eauto.
Qed.

Ltac fs_step :=
  first
    [ assumption
    | match goal with H : _ |- _ => apply H end
    | apply keeps_ret; apply _
    | apply keeps_raise; apply _
    | apply keeps_gets; apply _
    | apply keeps_modify; intros ?; apply fs_le_same; reflexivity
    | apply keeps_bind; [apply _| |intros ?]
    | apply keeps_io_ret; apply _
    | apply keeps_io_raise; apply _
    | apply keeps_io_lift
    | apply keeps_io_bind; [apply _| |intros ?]
    | match goal with
      | |- keeps _ (if ?b then _ else _) => destruct b
      | |- keeps _ (match ?x with _ => _ end) => destruct x
      | |- keeps_io _ (if ?b then _ else _) => destruct b
      | |- keeps_io _ (match ?x with _ => _ end) => destruct x
      end ].

Ltac fs_tac := repeat fs_step.

Lemma logger_fs (lv : level) (msg : string) : keeps fs_le (logger lv msg).
Proof. unfold logger, emit. fs_tac. Qed.

Lemma session_reply_fs (req : request) (reply : option response) :
  keeps fs_le (session_reply req reply).
Proof. unfold session_reply, emit. fs_tac. Qed.

Lemma delete_credentials_fs : keeps fs_le delete_credentials.
Proof. unfold delete_credentials, logger, emit. fs_tac. Qed.

Lemma save_credentials_fs (c : gmap string string) : keeps fs_le (save_credentials c).
Proof. unfold save_credentials. fs_tac. Qed.

Lemma insert_fs (bmset : bmset_data) :
  keeps fs_le (b <- BeatmapSet_init bmset;; beatmapsets_add b).
Proof. unfold BeatmapSet_init, beatmapsets_add. fs_tac. Qed.

Lemma scan_beatmaps_fs (s : string) (beatmaps : list Z) :
  keeps fs_le (scan_beatmaps s beatmaps).
Proof. induction beatmaps as [|m beatmaps IH]; simpl; fs_tac. Qed.

Lemma scan_beatmapsets_fs (s : string) (sets : list bmset_data) (chk : bool) :
  keeps fs_le (scan_beatmapsets s sets chk).
Proof.
  revert chk. induction sets as [|bmset sets IH]; intros chk; simpl.
  - fs_tac.
  - destruct chk; simpl; [apply IH|].
    pose proof (scan_beatmaps_fs s (data_beatmaps bmset)).
    unfold BeatmapSet_init, beatmapsets_add. fs_tac; apply IH.
Qed.

Lemma beatmapsets_update_fs (sets : list bmset_data) :
  keeps fs_le (beatmapsets_update sets).
Proof.
  induction sets as [|bmset sets IH]; simpl; [fs_tac|].
  unfold BeatmapSet_init, beatmapsets_add. fs_tac.
Qed.

Lemma scrape_query_fs (s : string) (reply : option response) :
  keeps fs_le (scrape_query s reply).
Proof.
  pose proof (session_reply_fs (search_request s) reply).
  unfold scrape_query.
  apply keeps_bind; [apply _ | done |]. intros r.
  destruct (json r) as [sets|]; [|fs_tac].
  pose proof (scan_beatmapsets_fs s sets false).
  pose proof (beatmapsets_update_fs sets).
  unfold logger, emit. fs_tac.
Qed.

Lemma filter_existing_fs (todo filtered_set : list BeatmapSet) :
  keeps fs_le (filter_existing todo filtered_set).
Proof.
  revert filtered_set. induction todo as [|b todo IH]; intros acc; simpl.
  - fs_tac.
  - unfold logger, emit. fs_tac; apply IH.
Qed.

Lemma remove_existing_beatmapsets_fs : keeps fs_le remove_existing_beatmapsets.
Proof.
  unfold remove_existing_beatmapsets.
  apply keeps_bind; [apply _ | fs_tac |]. intros s0.
  apply keeps_bind; [apply _ | apply filter_existing_fs |]. intros f. fs_tac.
Qed.

Lemma write_beatmapset_file_fs (filename : string) (r : response) :
  keeps fs_le (write_beatmapset_file filename r).
Proof.
  intros w. unfold write_beatmapset_file. mred.
  destruct (resp_headers r !! "content-length") as [v|]; simpl;
    [|by apply fs_le_same].
  destruct (int_of_str v); simpl; [|by apply fs_le_same].
  destruct (isdir (fs w) _) eqn:Hdir; simpl; [by apply fs_le_same|].
  destruct (fs w !! DOWNLOAD_PATH) as [[|c]|]; simpl;
    [|by apply fs_le_same..].
  destruct (true_division_overflows _); simpl; by eapply fs_le_insert_file.
Qed.

Lemma download_beatmapset_file_fs (b : BeatmapSet) (reply : option response) :
  keeps fs_le (download_beatmapset_file b reply).
Proof.
  pose proof (session_reply_fs).
  unfold download_beatmapset_file.
  apply keeps_bind; [apply _ | apply logger_fs |]. intros _.
  apply keeps_bind; [apply _ | fs_tac |]. intros nv.
  apply keeps_bind; [apply _ | done |]. intros r.
  destruct (bool_decide _).
  - apply keeps_bind; [apply _ | apply logger_fs |]. intros _.
    apply keeps_bind; [apply _ | apply write_beatmapset_file_fs |]. intros _.
    fs_tac.
  - apply keeps_bind; [apply _ | apply logger_fs |]. intros _. fs_tac.
Qed.

Lemma run_iteration_fs (tries : nat) (reply : option response) :
  keeps fs_le (run_iteration tries reply).
Proof.
  unfold run_iteration.
  apply keeps_bind; [apply _ | unfold beatmapsets_pop; fs_tac |]. intros x.
  apply keeps_bind; [apply _ | apply download_beatmapset_file_fs |].
  intros [|]; unfold beatmapsets_add, logger, emit; fs_tac.
Qed.

Lemma run_loop_fs (net : list response) (tries : nat) (w : world) :
  fs_le w (run_loop net tries w).2.2.
Proof.
  revert tries w. induction net as [|r net IH]; intros tries w; simpl.
  - destruct (beatmapsets w); [reflexivity|].
    pose proof (run_iteration_fs tries None w) as H. unfold bind.
    by destruct (run_iteration tries None w) as [[t|e] w1].
  - destruct (beatmapsets w); [reflexivity|].
    pose proof (run_iteration_fs tries (Some r) w) as H.
    destruct (run_iteration tries (Some r) w) as [[t|e] w1]; simpl in *; [|done].
    etrans; [exact H | apply IH].
Qed.

Lemma log_each_fs (s : list BeatmapSet) : keeps fs_le (log_each s).
Proof. induction s as [|b s IH]; simpl; unfold logger, emit; fs_tac. Qed.

Lemma input_fs (prompt : string) : keeps_io fs_le (input prompt).
Proof.
  intros stdin net w. unfold input. destruct stdin; by apply fs_le_same.
Qed.

Lemma session_request_fs (req : request) : keeps_io fs_le (session_request req).
Proof.
  intros stdin net w. unfold session_request.
  pose proof (session_reply_fs req (head net) w) as H.
  by destruct (session_reply req (head net) w) as [o w1].
Qed.

Lemma ask_credentials_fs (c : gmap string string) : keeps_io fs_le (ask_credentials c).
Proof.
  pose proof input_fs. pose proof save_credentials_fs.
  unfold ask_credentials. fs_tac.
Qed.

Lemma load_credentials_fs (c : gmap string string) : keeps_io fs_le (load_credentials c).
Proof.
  pose proof ask_credentials_fs. pose proof logger_fs.
  unfold load_credentials. fs_tac.
Qed.

Lemma login_fs : keeps_io fs_le login.
Proof.
  pose proof input_fs. pose proof session_request_fs. pose proof logger_fs.
  pose proof delete_credentials_fs.
  unfold login, get_token. fs_tac.
Qed.

Lemma scrape_loop_fs (num_beatmapsets : nat) :
  keeps_io fs_le (λ '(stdin, net, w), scrape_loop num_beatmapsets stdin net w).
Proof.
  intros stdin. revert num_beatmapsets.
  induction stdin as [|s stdin IH]; intros num net w; simpl; [reflexivity|].
  destruct (bool_decide (s = "-1")); [reflexivity|].
  destruct (bool_decide (s = "")); [apply IH|].
  pose proof (scrape_query_fs s (head net) w) as H.
  destruct (scrape_query s (head net) w) as [[[]|e] w1]; simpl in *; [|done].
  etrans; [exact H | apply IH].
Qed.

Lemma scrape_beatmapsets_fs : keeps_io fs_le scrape_beatmapsets.
Proof.
  pose proof logger_fs. pose proof scrape_loop_fs.
  unfold scrape_beatmapsets. fs_tac.
Qed.

Lemma run_fs : keeps_io fs_le run.
Proof.
  pose proof logger_fs. pose proof log_each_fs.
  unfold run.
  apply keeps_io_bind; [apply _ | fs_tac |]. intros _.
  apply keeps_io_bind; [apply _ | fs_tac |]. intros s0.
  apply keeps_io_bind; [apply _ | fs_tac |]. intros _.
  apply keeps_io_bind; [apply _ | | intros _; fs_tac].
  intros stdin net w. pose proof (run_loop_fs net 0 w) as Hl.
  by destruct (run_loop net 0 w) as [o [net' w']].
Qed.

Lemma Downloader_init_fs (l : Z) (nv : bool) : keeps_io fs_le (Downloader_init l nv).
Proof.
  pose proof load_credentials_fs. pose proof login_fs.
  pose proof scrape_beatmapsets_fs. pose proof remove_existing_beatmapsets_fs.
  unfold Downloader_init. fs_tac.
Qed.

(** [main] after it has made sure that the download directory exists. *)
Definition main_with_directory : IO unit :=
  file <- lift (gets creds_file);;
  match file with
  | Some (Some loaded) =>
      match loaded !! "username" with
      | Some username =>
          lift (emit (Stdout ("loaded with username :  " +:+ username +:+ newline)))
      | None => raise KeyError
      end
  | Some None => raise JSONDecodeError
  | None =>
      lift (logger INFO ("File " +:+ CREDS_FILEPATH +:+ " not found"));;
      ask_credentials ∅;;
      ret tt
  end;;
  Downloader_init 10 true;;
  run.

Definition with_directory (w : world) : world :=
  if bool_decide (is_Some (fs w !! DOWNLOAD_PATH)) then w
  else set_fs (<[DOWNLOAD_PATH := Dir]> (fs w)) w.

Lemma main_makes_directory (stdin : list string) (net : list response) (w : world) :
  main (stdin, net, w) = main_with_directory (stdin, net, with_directory w).
Proof.
  unfold main, with_directory. unfold bind at 1. unfold lift at 1. simpl.
  unfold bind at 1.
  destruct (bool_decide (is_Some (fs w !! DOWNLOAD_PATH))); reflexivity.
Qed.

Lemma main_with_directory_fs : keeps_io fs_le main_with_directory.
Proof.
  pose proof ask_credentials_fs. pose proof logger_fs.
  pose proof Downloader_init_fs. pose proof run_fs.
  unfold main_with_directory, emit. fs_tac.
Qed.

Lemma with_directory_fs (w : world) : fs_le w (with_directory w).
Proof.
  unfold with_directory.
  destruct (bool_decide (is_Some (fs w !! DOWNLOAD_PATH))) eqn:E; [reflexivity|].
  apply bool_decide_eq_false in E. intros p. simpl.
  destruct (decide (DOWNLOAD_PATH = p)) as [<-|Hne].
  - destruct (fs w !! DOWNLOAD_PATH) eqn:E'; [|done]. exfalso. apply E. eauto.
  - rewrite lookup_insert_ne by done. destruct (fs w !! p) as [[|c]|]; eauto.
Qed.

(** X19. However a run of [main] ends, it has removed nothing from the
    local file system and changed the kind of no entry: every directory
    that was there is still a directory, and every file is still a file
    (its content may have been written again). *)
Theorem main_removes_no_file
    (stdin : list string) (net : list response) (w : world) (p : string) :
  (fs w !! p = Some Dir → fs (main (stdin, net, w)).2.2 !! p = Some Dir) ∧
  (∀ content, fs w !! p = Some (File content) →
     ∃ content', fs (main (stdin, net, w)).2.2 !! p = Some (File content')).
Proof.
  assert (H : fs_le w (main (stdin, net, w)).2.2).
  { rewrite main_makes_directory.
    etrans; [apply with_directory_fs | apply main_with_directory_fs]. }
  specialize (H p). split.
  - intros E. by rewrite E in H.
  - intros c E. by rewrite E in H.
Qed.

(** X20. Unless a regular file has the name of the download directory,
    that directory exists after a run of [main], however the run ends: it
    is created first thing when nothing has its name, and nothing removes
    it.  When a regular file has that name no directory is made and the
    file stays a file. *)
Theorem main_creates_download_directory
    (stdin : list string) (net : list response) (w : world) :
  ((∀ content, fs w !! DOWNLOAD_PATH ≠ Some (File content)) →
   fs (main (stdin, net, w)).2.2 !! DOWNLOAD_PATH = Some Dir) ∧
  (∀ content, fs w !! DOWNLOAD_PATH = Some (File content) →
     ∃ content', fs (main (stdin, net, w)).2.2 !! DOWNLOAD_PATH
                 = Some (File content')).
Proof.
  rewrite main_makes_directory.
  pose proof (main_with_directory_fs stdin net (with_directory w) DOWNLOAD_PATH) as H.
  unfold with_directory in *.
  destruct (bool_decide (is_Some (fs w !! DOWNLOAD_PATH))) eqn:E.
  - apply bool_decide_eq_true in E as [n E]. rewrite E in H. split.
    + intros Hno. destruct n as [|c]; [by rewrite H|]. by destruct (Hno c).
    + intros c Ec. rewrite E in Ec. by injection Ec as ->.
  - simpl in H. rewrite lookup_insert_eq in H. split; [done|].
    apply bool_decide_eq_false in E. intros c Ec. destruct E. by rewrite Ec.
Qed.

(** ** Runs of the download loop *)






Lemma write_beatmapset_file_beatmapsets (filename : string) (r : response) (w : world) :
  beatmapsets (write_beatmapset_file filename r w).2 = beatmapsets w ∧
  requests (trace (write_beatmapset_file filename r w).2) = requests (trace w).
Proof.
  unfold write_beatmapset_file. mred.
  destruct (resp_headers r !! "content-length") as [v|]; simpl; [|done].
  destruct (int_of_str v); simpl; [|done].
  destruct (isdir (fs w) _); simpl; [done|].
  destruct (fs w !! DOWNLOAD_PATH) as [[|c]|]; simpl; [|done..].
  destruct (true_division_overflows _); simpl; done.
Qed.

Lemma requests_cons (e : event) (t : list event) :
  requests (e :: t) = ((if is_request e then 1 else 0) + requests t)%nat.
Proof. unfold requests. simpl. by destruct (is_request e). Qed.

Lemma run_iteration_requests (tries : nat) (reply : option response) (w : world) :
  beatmapsets w ≠ [] →
  requests (trace (run_iteration tries reply w).2) = S (requests (trace w)).
Proof.
  intros Hne.
  destruct (beatmapsets_pop_nonempty w Hne) as (i & x & Hx & Hpop).
  unfold run_iteration, bind at 1. rewrite Hpop.
  unfold bind at 1.
  unfold download_beatmapset_file, session_reply. mred.
  destruct reply as [r|]; simpl; [|done].
  destruct (bool_decide (status_code r = codes_ok)); simpl.
  - match goal with
    | |- context [write_beatmapset_file ?f ?d ?w0] =>
        destruct (write_beatmapset_file_beatmapsets f d w0) as [_ Hreq];
        destruct (write_beatmapset_file f d w0) as [[[]|e] w2]
    end; simpl in *; rewrite ?requests_cons in *; simpl in *; lia.
  - unfold beatmapsets_add. mred.
    destruct (4 <? S tries)%nat; simpl; rewrite ?requests_cons; simpl; lia.
Qed.

Lemma run_iteration_Ok_size (tries tries' : nat) (reply : option response)
    (w w' : world) :
  distinct_objects (beatmapsets w) →
  run_iteration tries reply w = (Ok tries', w') →
  distinct_objects (beatmapsets w') ∧
  ((tries' = 0%nat ∧ S (length (beatmapsets w')) = length (beatmapsets w)) ∨
   (tries' = S tries ∧ (S tries ≤ 4)%nat ∧ beatmapsets w' ≠ [] ∧
    length (beatmapsets w') = length (beatmapsets w))).
Proof.
  intros Hnd H.
  destruct (decide (beatmapsets w = [])) as [E|Hne].
  { unfold run_iteration, beatmapsets_pop in H. mred_in H.
    rewrite E in H. simpl in H. done. }
  destruct reply as [r|].
  2:{ destruct (beatmapsets_pop_nonempty w Hne) as (i & x & Hx & Hpop).
      unfold run_iteration, bind at 1 in H. rewrite Hpop in H.
      unfold download_beatmapset_file, session_reply in H. mred_in H. done. }
  destruct (decide (status_code r = codes_ok)) as [Hok|Hno].
  - destruct (beatmapsets_pop_nonempty w Hne) as (i & x & Hx & Hpop).
    unfold run_iteration, bind at 1 in H. rewrite Hpop in H.
    unfold bind at 1 in H.
    unfold download_beatmapset_file, session_reply in H. mred_in H.
    rewrite bool_decide_eq_true_2 in H by done. simpl in H.
    match type of H with
    | context [write_beatmapset_file ?f ?d ?w0] =>
        destruct (write_beatmapset_file_beatmapsets f d w0) as [Hb _];
        destruct (write_beatmapset_file f d w0) as [[[]|e] w2]
    end; simpl in *; [|done].
    injection H as <- <-. simpl. rewrite Hb. simpl. split.
    + by apply distinct_objects_delete.
    + left. split; [done|]. rewrite length_delete by (by eexists).
      pose proof (lookup_lt_Some _ _ _ Hx). lia.
  - destruct (run_iteration_failure tries r w Hne Hnd Hno)
      as (w1 & (Hperm & _) & Hit).
    rewrite Hit in H. destruct (Nat.ltb_spec 4 (S tries)); [done|].
    injection H as <- <-. split.
    + eapply distinct_objects_perm; [symmetry; exact Hperm | done].
    + right. split; [done|]. split; [lia|]. split; [|by rewrite Hperm].
      intros E. rewrite E in Hperm. by apply Permutation_nil_l in Hperm.
Qed.

Lemma run_loop_request_bound (net : list response) (tries : nat) (w : world) :
  (tries ≤ 4)%nat → (tries = 0%nat ∨ beatmapsets w ≠ []) →
  distinct_objects (beatmapsets w) →
  (requests (trace (run_loop net tries w).2.2) + tries
   ≤ requests (trace w) + 5 * length (beatmapsets w))%nat.
Proof.
  revert tries w. induction net as [|r net IH]; intros tries w Ht Hinv Hnd; simpl.
  - destruct (beatmapsets w) as [|b0 s0] eqn:Es.
    { simpl. destruct Hinv; [lia | done]. }
    pose proof (run_iteration_requests tries None w) as Hreq.
    rewrite Es in Hreq. specialize (Hreq ltac:(done)).
    unfold bind. destruct (run_iteration tries None w) as [[t|e] w1];
      simpl in *; lia.
  - destruct (beatmapsets w) as [|b0 s0] eqn:Es.
    { simpl. destruct Hinv; [lia | done]. }
    pose proof (run_iteration_requests tries (Some r) w) as Hreq.
    rewrite Es in Hreq. specialize (Hreq ltac:(done)).
    destruct (run_iteration tries (Some r) w) as [[t|e] w1] eqn:Hit;
      simpl in *; [|lia].
    destruct (run_iteration_Ok_size _ _ _ _ _ ltac:(by rewrite Es) Hit)
      as [Hnd1 [[-> Hl]|(-> & Hle & Hne1 & Hl)]]; rewrite Es in Hl; simpl in Hl.
    + specialize (IH 0%nat w1 ltac:(lia) ltac:(by left) Hnd1). lia.
    + specialize (IH (S tries) w1 Hle ltac:(by right) Hnd1). lia.
Qed.

(** X22. Whatever the server answers, the loop makes at most 5 N download
    requests in all, N being the number of records in the working set it
    starts with (a single record can take more than five of them): it
    always ends, by draining the set, by the exit after five failures in a
    row or by an exception, within that many requests. *)
Theorem download_requests_bounded (net : list response) (w : world) :
  distinct_objects (beatmapsets w) →
  (requests (trace (run_loop net 0 w).2.2)
   ≤ requests (trace w) + 5 * length (beatmapsets w))%nat.
Proof.
  intros Hnd.
  pose proof (run_loop_request_bound net 0 w ltac:(lia) ltac:(by left) Hnd).
  lia.
Qed.

End Program.

(** * The properties at concrete inputs *)

Lemma two_records_distinct : distinct_objects (beatmapsets two_records).
Proof. apply (bool_decide_unpack _). by vm_compute. Defined.


Lemma five_failures_terminate_witness :
  beatmapsets two_records ≠ [] ∧
  distinct_objects (beatmapsets two_records) ∧
  ∃ w', run_loop digits_int pop_first
          (replicate 5 (status_only 503) ++ [archive 200]) 0 two_records
        = (Raise (SystemExit None), ([archive 200], w')) ∧
        requests (trace w') = (requests (trace two_records) + 5)%nat.
Proof.
  assert (H1 : beatmapsets two_records ≠ []) by done.
  split; [exact H1|]. split; [exact two_records_distinct|].
  destruct (five_failures_terminate digits_int pop_first
              (replicate 5 (status_only 503)) [archive 200] two_records
              H1 two_records_distinct eq_refl)
    as (w' & E & Hreq & _).
  - repeat constructor; by vm_compute.
  - exists w'. by split.
Defined.


(** The first of the two records has its archive in the download
    directory. *)
Definition one_downloaded : world :=
  set_fs (<["./Downloads/5 A - Foo_ Bar_Baz.osz" := File "abcde"]>
            (fs two_records)) two_records.

Lemma remove_existing_beatmapsets_count_witness :
  distinct_objects (beatmapsets one_downloaded) ∧
  2%nat = length (beatmapsets one_downloaded) ∧
  1%nat = length (List.filter (already_downloaded (fs one_downloaded))
                    (beatmapsets one_downloaded)) ∧
  ∃ w', remove_existing_beatmapsets one_downloaded = (Ok tt, w') ∧
        length (beatmapsets w') = 1%nat ∧ fs w' = fs one_downloaded.
Proof.
  assert (H2 : 2%nat = length (beatmapsets one_downloaded)) by reflexivity.
  assert (H3 : 1%nat = length (List.filter (already_downloaded (fs one_downloaded))
                                 (beatmapsets one_downloaded)))
    by (by vm_compute).
  split; [exact two_records_distinct|]. split; [exact H2|]. split; [exact H3|].
  destruct (remove_existing_beatmapsets_count one_downloaded 2 1
              two_records_distinct H2 H3)
    as (w' & E & _ & Hlen & _ & _ & Hfs & _).
  exists w'. by repeat split.
Defined.

Lemma numeric_query_miss_witness :
  digits_isnumeric "4321" = true ∧
  digits_int "4321" = Some 4321 ∧
  scrape_query digits_isnumeric digits_int "4321"
    (Some (search_result [sample_set; other_set])) two_records
  = (Ok tt, set_trace (not_found_log "4321" :: Http (search_request "4321")
                       :: trace two_records) two_records).
Proof.
  assert (H1 : digits_isnumeric "4321" = true) by (by vm_compute).
  assert (H2 : digits_int "4321" = Some 4321) by (by vm_compute).
  split; [exact H1|]. split; [exact H2|].
  apply (numeric_query_miss digits_isnumeric digits_int "4321" 4321 []
           (search_result [sample_set; other_set]) [sample_set; other_set] [] 0
           two_records).
  - done.
  - done.
  - exact H1.
  - exact H2.
  - reflexivity.
  - apply (bool_decide_unpack _). by vm_compute.
Defined.

Lemma content_length_parsed_before_open_witness :
  no_usable_length digits_int (status_only 200) ∧
  ∃ e w', download_beatmapset_file digits_int (sample_record 0 sample_set)
            (Some (status_only 200)) two_records = (Raise e, w') ∧
          fs w' = fs two_records.
Proof.
  assert (H1 : no_usable_length digits_int (status_only 200)) by (by left).
  split; [exact H1|].
  destruct (content_length_parsed_before_open digits_int
              (sample_record 0 sample_set) "name" (status_only 200) two_records H1)
    as [_ H].
  destruct (H eq_refl) as (e & w' & E & _ & Hfs).
  by exists e, w'.
Defined.


Lemma working_set_unique_by_object_witness :
  allocated two_records ∧
  distinct_objects
    (scrape_loop digits_isnumeric digits_int 0 ["abc"; "abc"; "-1"]
       [search_result [sample_set]; search_result [sample_set]]
       two_records).2.2.(beatmapsets).
Proof.
  assert (H1 : allocated two_records).
  { split; [exact two_records_distinct|]. intros b Hb.
    apply elem_of_cons in Hb as [->|Hb]; [simpl; lia|].
    apply elem_of_cons in Hb as [->|Hb]; [simpl; lia|].
    by apply elem_of_nil in Hb. }
  split; [exact H1|].
  exact (proj1 (working_set_unique_by_object digits_isnumeric digits_int)
           0%nat _ _ two_records H1).
Defined.

(** C1, the code at the failing input.  The working set is a [set] and
    search results are merged into it with [update], but [BeatmapSet] has
    neither [__eq__] nor [__hash__]: the same search result fed twice
    leaves two records with the same set_id in the working set. *)
Lemma same_set_id_collected_twice :
  ¬ NoDup (set_id <$>
             (scrape_loop digits_isnumeric digits_int 0 ["abc"; "abc"; "-1"]
                [search_result [sample_set]; search_result [sample_set]]
                (boot ∅ None)).2.2.(beatmapsets)).
Proof.
  assert (E : set_id <$>
                (scrape_loop digits_isnumeric digits_int 0 ["abc"; "abc"; "-1"]
                   [search_result [sample_set]; search_result [sample_set]]
                   (boot ∅ None)).2.2.(beatmapsets) = [5; 5])
    by (by vm_compute).
  rewrite E. intros H. apply NoDup_cons in H as [H _]. apply H. by left.
Qed.


(** C3, the code at the failing input.  One record is collected and its
    download fails five times in a row: the process logs the failure as an
    error and leaves through [sys.exit()], that is with exit status 0. *)
Theorem ceiling_breach_exit_status :
  let r := main "/home/osu" digits_isnumeric digits_int pop_first
             (["song"; "-1"],
              sample_home :: status_only 200 :: search_result [sample_set]
                :: replicate 5 (status_only 503),
              boot ∅ (Some (Some sample_creds))) in
  r.1 = Raise (SystemExit None) ∧
  exit_status r.1 = 0 ∧
  trace r.2.2 !! 3%nat = Some (Log ERROR "Failed 5 times in a row") ∧
  requests (trace r.2.2) = 8%nat.
Proof. cbv zeta. by vm_compute. Qed.

(** * The further properties at concrete inputs *)

Lemma two_records_allocated : allocated two_records.
Proof.
  split; [exact two_records_distinct|]. intros b Hb.
  apply elem_of_cons in Hb as [->|Hb]; [simpl; lia|].
  apply elem_of_cons in Hb as [->|Hb]; [simpl; lia|].
  by apply elem_of_nil in Hb.
Defined.


(** A content-length of 10^400: [int] accepts it, the file is opened, and
    the division by the chunk size raises [OverflowError], which leaves
    the empty file behind. *)
Definition oversized : response :=
  {| status_code := 200;
     resp_headers :=
       {["content-length"
         := String "1" (String.string_of_list_ascii (replicate 400 "0"%char))]};
     text := ""; json := None; bad_json := NotJSON;
     iter_content := ["abc"; "de"] |}.

Lemma oversized_content_length_leaves_empty_file :
  (write_beatmapset_file digits_int "A - Foo" oversized two_records).1
  = Raise OverflowError ∧
  fs (write_beatmapset_file digits_int "A - Foo" oversized two_records).2
  !! "./Downloads/A - Foo.osz" = Some (File "").
Proof. by vm_compute. Qed.

Lemma csrf_regex_match_delimits_witness :
  csrf_regex_match sample_page = Some "tok123" ∧
  ∃ a b c, sample_page = a +:+ "csrf-token" +:+ b +:+ content_attr +:+ "tok123"
                           +:+ attr_end +:+ c.
Proof.
  assert (H1 : csrf_regex_match sample_page = Some "tok123") by reflexivity.
  split; [exact H1|].
  destruct (proj2 (csrf_regex_match_delimits sample_page) "tok123" H1)
    as (a & b & c & E & _).
  by exists a, b, c.
Defined.

Lemma login_without_token_witness :
  csrf_regex_match (text (status_only 200)) = None ∧
  (login "/home/osu" ([], [status_only 200], two_records)).1 = Raise AttributeError.
Proof.
  assert (H1 : csrf_regex_match (text (status_only 200)) = None) by reflexivity.
  split; [exact H1|].
  destruct (login_without_token "/home/osu" [] (status_only 200) [] two_records H1)
    as [E _].
  by rewrite E.
Defined.

Lemma login_failure_deletes_on_yes_witness :
  csrf_regex_match (text sample_home) = Some "tok123" ∧
  status_code (status_only 403) ≠ codes_ok ∧
  ∃ w', login "/home/osu" (["Y"], [sample_home; status_only 403], two_records)
        = (Raise (SystemExit (Some 1)), ([], [], w')) ∧
        creds_file w' = None.
Proof.
  assert (H1 : csrf_regex_match (text sample_home) = Some "tok123") by reflexivity.
  assert (H2 : status_code (status_only 403) ≠ codes_ok) by done.
  split; [exact H1|]. split; [exact H2|].
  destruct (login_failure_deletes_on_yes "/home/osu" "Y" [] sample_home
              (status_only 403) [] two_records "tok123" H1 H2)
    as [_ (w' & E & Hc & _)].
  exists w'. by split.
Defined.

Lemma unsaved_credentials_are_asked_twice_witness :
  creds_file (boot ∅ None) = None ∧
  lower_is_y "n" = false ∧
  ∃ w1, main "/home/osu" digits_isnumeric digits_int pop_first
          (["u1"; "p1"; "n"; "u2"; "p2"; "n"; "-1"], [], boot ∅ None)
        = after_credentials "/home/osu" digits_isnumeric digits_int pop_first
            (["-1"], [], w1) ∧
        credentials w1 = entered "u2" "p2".
Proof.
  assert (H1 : creds_file (boot ∅ None) = None) by reflexivity.
  assert (H2 : lower_is_y "n" = false) by reflexivity.
  split; [exact H1|]. split; [exact H2|].
  destruct (unsaved_credentials_are_asked_twice "/home/osu" digits_isnumeric
              digits_int pop_first "u1" "p1" "n" "u2" "p2" "n" ["-1"] []
              (boot ∅ None) H1 H2)
    as (w1 & E & Hc & _).
  exists w1. by split.
Defined.

Lemma saved_credentials_are_reused_witness :
  creds_file (boot ∅ None) = None ∧
  lower_is_y "y" = true ∧
  ∃ w1, main "/home/osu" digits_isnumeric digits_int pop_first
          (["u"; "p"; "y"; "-1"], [], boot ∅ None)
        = after_credentials "/home/osu" digits_isnumeric digits_int pop_first
            (["-1"], [], w1) ∧
        creds_file w1 = Some (Some (entered "u" "p")).
Proof.
  assert (H1 : creds_file (boot ∅ None) = None) by reflexivity.
  assert (H2 : lower_is_y "y" = true) by reflexivity.
  split; [exact H1|]. split; [exact H2|].
  destruct (saved_credentials_are_reused "/home/osu" digits_isnumeric
              digits_int pop_first "u" "p" "y" ["-1"] [] (boot ∅ None) H1 H2)
    as (w1 & E & _ & Hc & _).
  exists w1. by split.
Defined.

Lemma unusable_credentials_file_witness :
  creds_file (boot ∅ (Some None)) = Some None ∧
  ∃ e w', main "/home/osu" digits_isnumeric digits_int pop_first
            (["-1"], [sample_home], boot ∅ (Some None))
          = (Raise e, (["-1"], [sample_home], w')) ∧
          fs w' !! DOWNLOAD_PATH = Some Dir.
Proof.
  assert (H1 : creds_file (boot ∅ (Some None)) = Some None) by reflexivity.
  split; [exact H1|].
  destruct (unusable_credentials_file "/home/osu" digits_isnumeric digits_int
              pop_first ["-1"] [sample_home] (boot ∅ (Some None)) (or_introl H1))
    as (e & w' & E & _ & _ & _ & Hd).
  exists e, w'. split; [exact E|]. by apply Hd.
Defined.

Lemma collector_only_adds_witness :
  sample_record 0 sample_set ∈ beatmapsets two_records ∧
  sample_record 0 sample_set
    ∈ beatmapsets (scrape_loop digits_isnumeric digits_int 2 ["abc"; "-1"]
                     [search_result [sample_set]] two_records).2.2.
Proof.
  assert (H1 : sample_record 0 sample_set ∈ beatmapsets two_records) by (by left).
  split; [exact H1|].
  exact (collector_only_adds digits_isnumeric digits_int 2 ["abc"; "-1"]
           [search_result [sample_set]] two_records _ H1).
Defined.

Lemma collector_returns_at_sentinel_witness :
  ("-1" ∉ ["abc"]) ∧
  ∃ e, (scrape_loop digits_isnumeric digits_int 0 ["abc"]
          [search_result [sample_set]] two_records).1 = Raise e.
Proof.
  assert (H1 : "-1" ∉ ["abc"]) by (apply (bool_decide_unpack _); by vm_compute).
  split; [exact H1|].
  exact (proj2 (collector_returns_at_sentinel digits_isnumeric digits_int 0
                  ["abc"] [search_result [sample_set]] two_records) H1).
Defined.

(** A collection of two queries around a blank line, from the state
    [two_records]. *)
Definition sample_collection : outcome nat * io :=
  scrape_loop digits_isnumeric digits_int 2 ["abc"; ""; "4321"; "-1"; "later"]
    [search_result [sample_set]; search_result [other_set]; status_only 200]
    two_records.

Lemma sample_collection_returns :
  sample_collection = (Ok 3%nat, (["later"], [status_only 200], sample_collection.2.2)).
Proof. by vm_compute. Defined.

Lemma collector_one_request_per_query_witness :
  ∃ (lines : list string) (answered : list response),
    ["abc"; ""; "4321"; "-1"; "later"] = lines ++ ("-1" :: ["later"]) ∧
    length answered = 2%nat ∧
    requests (trace sample_collection.2.2)
    = (requests (trace two_records) + length answered)%nat.
Proof.
  destruct (collector_one_request_per_query digits_isnumeric digits_int _ _ _ _ _ _ _ _
              sample_collection_returns)
    as (lines & answered & E1 & E2 & E3 & E4).
  exists lines, answered. split; [exact E1|]. split; [|exact E4].
  apply (f_equal length) in E2. rewrite length_app in E2. simpl in E2. lia.
Defined.

Lemma collector_reports_set_size_witness :
  3%nat = length (beatmapsets sample_collection.2.2).
Proof.
  exact (collector_reports_set_size digits_isnumeric digits_int _ _ _ _ _
           two_records _ sample_collection_returns).
Defined.

Lemma numeric_query_hit_witness :
  digits_int "1234" = Some 1234 ∧
  1234 ∈ data_beatmaps sample_set ∧
  ∃ w', scrape_query digits_isnumeric digits_int "1234"
          (Some (search_result [other_set; sample_set; sample_set])) two_records
        = (Ok tt, w') ∧
        beatmapsets w' ≡ₚ constructed 2 sample_set :: beatmapsets two_records.
Proof.
  assert (H1 : digits_int "1234" = Some 1234) by (by vm_compute).
  assert (H2 : 1234 ∈ data_beatmaps sample_set) by (by left).
  split; [exact H1|]. split; [exact H2|].
  assert (H3 : digits_isnumeric "1234" = true) by (by vm_compute).
  assert (H4 : Forall (λ b, 1234 ∉ data_beatmaps b) [other_set])
    by (apply (bool_decide_unpack _); by vm_compute).
  destruct (numeric_query_hit digits_isnumeric digits_int "1234" 1234
              (search_result [other_set; sample_set; sample_set])
              [other_set] [sample_set] sample_set two_records
              H3 H1 eq_refl H4 H2 two_records_allocated)
    as (w' & E & Hb & _).
  by exists w'.
Defined.

(** The superscript two, as the two bytes of its UTF-8 encoding: a string
    that [isnumeric] accepts and [int] rejects. *)
Definition superscript_two : string :=
  String (ascii_of_nat 194) (String (ascii_of_nat 178) "").

Definition unicode_isnumeric (s : string) : bool :=
  digits_isnumeric s || bool_decide (s = superscript_two).

Lemma numeric_query_not_an_integer_witness :
  unicode_isnumeric superscript_two = true ∧
  digits_int superscript_two = None ∧
  scrape_query unicode_isnumeric digits_int superscript_two
    (Some (search_result [sample_set])) two_records
  = (Raise ValueError,
     set_trace (Http (search_request superscript_two) :: trace two_records)
       two_records).
Proof.
  assert (H1 : unicode_isnumeric superscript_two = true) by (by vm_compute).
  assert (H2 : digits_int superscript_two = None) by (by vm_compute).
  split; [exact H1|]. split; [exact H2|].
  apply (proj1 (numeric_query_not_an_integer unicode_isnumeric digits_int
                  superscript_two (search_result [sample_set]) [sample_set]
                  two_records H1 H2 eq_refl)).
  apply Exists_cons. by left.
Defined.

Lemma failed_search_ends_collection_witness :
  "abc" ≠ "-1" ∧ "abc" ≠ "" ∧
  (scrape_loop digits_isnumeric digits_int 0 ["abc"; "-1"] [status_only 200]
     two_records).1 = Raise JSONDecodeError.
Proof.
  assert (H1 : "abc" ≠ "-1") by done.
  assert (H2 : "abc" ≠ "") by done.
  split; [exact H1|]. split; [exact H2|].
  by rewrite (proj1 (failed_search_ends_collection digits_isnumeric digits_int
                       "abc" 0 ["-1"] two_records H1 H2) (status_only 200) [] eq_refl).
Defined.

Lemma filter_is_idempotent_witness :
  distinct_objects (beatmapsets one_downloaded) ∧
  ∃ w1, remove_existing_beatmapsets one_downloaded = (Ok tt, w1) ∧
        remove_existing_beatmapsets w1 = (Ok tt, w1).
Proof.
  split; [exact two_records_distinct|].
  exact (filter_is_idempotent one_downloaded two_records_distinct).
Defined.

Lemma filter_logs_each_removed_witness :
  distinct_objects (beatmapsets one_downloaded) ∧
  ∃ w1, remove_existing_beatmapsets one_downloaded = (Ok tt, w1) ∧
        trace w1 = [Log INFO "Beatmapset already downloaded: 5 A - Foo_ Bar_Baz"].
Proof.
  split; [exact two_records_distinct|].
  destruct (filter_logs_each_removed one_downloaded two_records_distinct)
    as (w1 & E & Ht & _).
  exists w1. split; [exact E|]. rewrite Ht. by vm_compute.
Defined.


Lemma main_removes_no_file_witness :
  fs two_records !! DOWNLOAD_PATH = Some Dir ∧
  fs (main "/home/osu" digits_isnumeric digits_int pop_first
        (["abc"; "-1"], [sample_home; status_only 200], two_records)).2.2
    !! DOWNLOAD_PATH = Some Dir.
Proof.
  assert (H1 : fs two_records !! DOWNLOAD_PATH = Some Dir) by (by vm_compute).
  split; [exact H1|].
  exact (proj1 (main_removes_no_file "/home/osu" digits_isnumeric digits_int
                  pop_first ["abc"; "-1"] [sample_home; status_only 200]
                  two_records DOWNLOAD_PATH) H1).
Defined.

Lemma main_creates_download_directory_witness :
  (∀ content, fs (boot ∅ None) !! DOWNLOAD_PATH ≠ Some (File content)) ∧
  fs (main "/home/osu" digits_isnumeric digits_int pop_first
        ([], [], boot ∅ None)).2.2 !! DOWNLOAD_PATH = Some Dir.
Proof.
  assert (H1 : ∀ content,
            fs (boot ∅ None) !! DOWNLOAD_PATH ≠ Some (File content)) by done.
  split; [exact H1|].
  exact (proj1 (main_creates_download_directory "/home/osu" digits_isnumeric
                  digits_int pop_first [] [] (boot ∅ None)) H1).
Defined.


Lemma download_requests_bounded_witness :
  distinct_objects (beatmapsets two_records) ∧
  (requests (trace (run_loop digits_int pop_first
                      (replicate 20 (status_only 503)) 0 two_records).2.2)
   ≤ 10)%nat.
Proof.
  split; [exact two_records_distinct|].
  exact (download_requests_bounded digits_int pop_first
           (replicate 20 (status_only 503)) two_records two_records_distinct).
Defined.
